(** * lib/db.ts: PostgreSQL access helper

    A shallow embedding of [src/lib/db.ts]: the module-load guard on
    [DATABASE_URL], the [sql] tagged-template helper, the [query]
    dispatcher, the schema bootstrap [init] and [closePool].

    The file is organised as the source is: configuration and pool,
    the pure query builder, then the effectful operations written in a
    small state-and-exception monad that mirrors [await], [try],
    [catch] and [finally]. *)

From Stdlib Require Import Ascii.
From stdpp Require Import gmap strings list pretty.

Open Scope string_scope.
Open Scope list_scope.
Open Scope nat_scope.

(** ** Values and query objects *)

(** [QueryConfig] of the [pg] typings, restricted to the two fields the
    module writes: [{ text, values }]. The element type of [values] is
    [any] in the source, so the record is parametric in it. *)
Record QueryConfig (V : Type) : Type := mkQueryConfig {
  text : string;
  values : list V
}.
Arguments mkQueryConfig {V} _ _.
Arguments text {V} _.
Arguments values {V} _.

(** A small universe of JavaScript values, used where a concrete [any]
    is needed. *)
Inductive Value : Type :=
| VNum (n : Z)
| VStr (s : string)
| VBool (b : bool)
| VNull.

(** ** The tagged-template helper [sql] (db.ts, lines 18-29) *)

(** The template literal [`$${params.length}`]: a dollar sign followed by
    the decimal rendering of the number. *)
Definition placeholder (n : nat) : string := "$" +:+ pretty n.

(** The body of [for (let i = 0; i < strings.length; i++)]. The first
    argument is the part of [strings] from index [i] on; [text] and
    [params] are the two mutable locals. [values !! i] is [Some v]
    exactly when [i < values.length], in which case [v] is [values[i]]. *)
Fixpoint sql_loop {V : Type} (strings : list string) (values : list V)
    (i : nat) (text : string) (params : list V) : QueryConfig V :=
  match strings with
  | [] => mkQueryConfig text params
  | s :: rest =>
      let text := text +:+ s in
      match values !! i with
      | Some v =>
          let params := params ++ [v] in
          let text := text +:+ placeholder (length params) in
          sql_loop rest values (S i) text params
      | None => sql_loop rest values (S i) text params
      end
  end.

Definition sql {V : Type} (strings : list string) (values : list V)
    : QueryConfig V :=
  sql_loop strings values 0 "" [].

(** *** Reference descriptions of the builder's output *)

(** Fragments with [$k], [$k+1], ... written between consecutive
    fragments, and nothing after the last one. *)
Fixpoint interleave (fragments : list string) (k : nat) : string :=
  match fragments with
  | [] => ""
  | [f] => f
  | f :: rest => f +:+ placeholder k +:+ interleave rest (S k)
  end.

(** Fragment number [i] followed by [$(i+1)] as long as [i] is below
    the number [n] of values, and by nothing afterwards. *)
Fixpoint numbered (fragments : list string) (i n : nat) : string :=
  match fragments with
  | [] => ""
  | f :: rest =>
      f +:+ (if decide (i < n) then placeholder (S i) else "")
        +:+ numbered rest (S i) n
  end.

(** Plain concatenation of fragments. *)
Definition join (fragments : list string) : string :=
  foldr String.append "" fragments.

(** ** Errors *)

(** The source throws one error of its own (line 6); every other error
    comes out of the [pg] library. Errors carry the category of the
    specification's taxonomy and a message. *)
Inductive ErrorKind : Type :=
| ConfigurationError
| ConnectionError
| QueryError.

Record Error : Type := mkError {
  kind : ErrorKind;
  message : string
}.

Global Instance ErrorKind_eq_dec : EqDecision ErrorKind.
Proof. solve_decision. Defined.

Global Instance Error_eq_dec : EqDecision Error.
Proof. solve_decision. Defined.

(** ** Module load: the [DATABASE_URL] guard and the pool (lines 4-15) *)

(** The options object handed to [new Pool(...)]. *)
Record PoolConfig : Type := mkPoolConfig {
  connectionString : string;
  max : Z;
  idleTimeoutMillis : Z
}.

(** [process.env] is a dictionary from names to strings; a name that is
    not set reads as [undefined], here [None]. *)
Abbreviation Env := (gmap string string).

(** Lines 4-15. [!connectionString] holds for [undefined] and for the
    empty string, the two falsy values a [process.env] entry can take.
    The result is the thrown error, or the options of the pool that is
    constructed. *)
Definition load_pool (env : Env) : Error + PoolConfig :=
  let connectionString := env !! "DATABASE_URL" in
  match connectionString with
  | None | Some "" =>
      inl (mkError ConfigurationError
             "Missing DATABASE_URL environment variable")
  | Some url =>
      inr (mkPoolConfig url 2%Z 30000%Z)
  end.

(** ** Statements sent to the database *)

Inductive ColType : Type := TUuid | TText | TTimestamptz | TJsonb.

Inductive Constraint : Type :=
| PrimaryKey
| Unique
| NotNull
| Default (expr : string)
| ReferencesOnDeleteCascade (table column : string).

Record Column : Type := mkColumn {
  col_name : string;
  col_type : ColType;
  col_constraints : list Constraint
}.

(** The statements of [init], as syntax, and [SQL] for any other text
    with its bound values (what [query] sends). All three [Create]
    statements are the [IF NOT EXISTS] forms, the only ones in the
    source. *)
Inductive Stmt : Type :=
| BEGIN
| COMMIT
| ROLLBACK
| CreateExtensionIfNotExists (name : string)
| CreateTableIfNotExists (name : string) (columns : list Column)
| CreateIndexIfNotExists (name table column : string)
| SQL (text : string) (values : list Value).

(** Line 52. *)
Definition create_pgcrypto : Stmt := CreateExtensionIfNotExists "pgcrypto".

(** Lines 55-65. *)
Definition create_users : Stmt :=
  CreateTableIfNotExists "users"
    [ mkColumn "id" TUuid [PrimaryKey; Default "gen_random_uuid()"];
      mkColumn "name" TText [];
      mkColumn "email" TText [Unique];
      mkColumn "email_verified" TTimestamptz [];
      mkColumn "image" TText [];
      mkColumn "created_at" TTimestamptz [NotNull; Default "now()"];
      mkColumn "updated_at" TTimestamptz [NotNull; Default "now()"] ].

(** Lines 68-78. *)
Definition create_sessions : Stmt :=
  CreateTableIfNotExists "sessions"
    [ mkColumn "id" TUuid [PrimaryKey; Default "gen_random_uuid()"];
      mkColumn "user_id" TUuid [ReferencesOnDeleteCascade "users" "id"];
      mkColumn "session_token" TText [Unique];
      mkColumn "access_token" TText [Unique];
      mkColumn "expires" TTimestamptz [];
      mkColumn "created_at" TTimestamptz [NotNull; Default "now()"];
      mkColumn "updated_at" TTimestamptz [NotNull; Default "now()"] ].

(** Lines 81-89. *)
Definition create_verification_tokens : Stmt :=
  CreateTableIfNotExists "verification_tokens"
    [ mkColumn "id" TUuid [PrimaryKey; Default "gen_random_uuid()"];
      mkColumn "identifier" TText [NotNull];
      mkColumn "token" TText [NotNull; Unique];
      mkColumn "expires" TTimestamptz [NotNull];
      mkColumn "created_at" TTimestamptz [NotNull; Default "now()"] ].

(** Lines 92-102. *)
Definition create_chat_sessions : Stmt :=
  CreateTableIfNotExists "chat_sessions"
    [ mkColumn "id" TUuid [PrimaryKey; Default "gen_random_uuid()"];
      mkColumn "user_id" TUuid [ReferencesOnDeleteCascade "users" "id"];
      mkColumn "title" TText [];
      mkColumn "metadata" TJsonb [];
      mkColumn "messages" TJsonb [Default "'[]'::jsonb"];
      mkColumn "created_at" TTimestamptz [NotNull; Default "now()"];
      mkColumn "updated_at" TTimestamptz [NotNull; Default "now()"] ].

(** Lines 105-107. *)
Definition create_idx_sessions_user_id : Stmt :=
  CreateIndexIfNotExists "idx_sessions_user_id" "sessions" "user_id".

Definition create_idx_chat_user_id : Stmt :=
  CreateIndexIfNotExists "idx_chat_user_id" "chat_sessions" "user_id".

Definition create_idx_verification_identifier : Stmt :=
  CreateIndexIfNotExists "idx_verification_identifier"
    "verification_tokens" "identifier".

(** ** The database behind the connection *)

(** What the bootstrap can change: extensions, tables with their column
    lists, and indexes with the table and column they are on. *)
Record Schema : Type := mkSchema {
  extensions : gset string;
  tables : gmap string (list Column);
  indexes : gmap string (string * string)
}.

Definition empty_schema : Schema := mkSchema ∅ ∅ ∅.

(** The committed schema, and the working copy of the transaction that
    is open on the bootstrap connection, if one is. *)
Record Db : Type := mkDb {
  committed : Schema;
  txn : option Schema
}.

Definition relation_missing (name : string) : Error :=
  mkError QueryError ("relation does not exist: " +:+ name).

Definition column_missing (name : string) : Error :=
  mkError QueryError ("column does not exist: " +:+ name).

Definition no_unique_constraint (table : string) : Error :=
  mkError QueryError
    ("there is no unique constraint matching given keys for referenced table: "
     +:+ table).

Definition datatype_mismatch (column : string) : Error :=
  mkError QueryError
    ("foreign key constraint cannot be implemented, key column: " +:+ column).

Global Instance ColType_eq_dec : EqDecision ColType.
Proof. solve_decision. Defined.

Definition has_column (column : string) (columns : list Column) : bool :=
  bool_decide (column ∈ col_name <$> columns).

(** The column of that name, if there is one. *)
Definition find_column (column : string) (columns : list Column)
    : option Column :=
  List.find (λ c, bool_decide (col_name c = column)) columns.

(** A column that is a primary key or carries a unique constraint. *)
Definition is_key (c : Column) : bool :=
  existsb (λ k, match k with PrimaryKey | Unique => true | _ => false end)
          (col_constraints c).

(** Tables and indexes share one name space: a name is taken when a
    relation of either kind has it. *)
Definition relation_exists (s : Schema) (name : string) : bool :=
  bool_decide (is_Some (tables s !! name)) ||
  bool_decide (is_Some (indexes s !! name)).

(** The foreign keys of a column list: the type of the referencing
    column, and the table and column it references. *)
Definition references (columns : list Column)
    : list (ColType * string * string) :=
  c ← columns;
  k ← col_constraints c;
  match k with
  | ReferencesOnDeleteCascade t col => [(col_type c, t, col)]
  | _ => []
  end.

(** What PostgreSQL asks of a foreign key: the referenced table and
    column exist, the column is a primary key or unique, and it has the
    type of the referencing column. *)
Fixpoint check_references (s : Schema) (refs : list (ColType * string * string))
    : option Error :=
  match refs with
  | [] => None
  | (ty, t, col) :: rest =>
      match tables s !! t with
      | None => Some (relation_missing t)
      | Some columns =>
          match find_column col columns with
          | None => Some (column_missing col)
          | Some target =>
              if negb (is_key target) then Some (no_unique_constraint t)
              else if bool_decide (ty = col_type target)
              then check_references s rest
              else Some (datatype_mismatch col)
          end
      end
  end.

(** Modelled from the spec: the PostgreSQL server is not part of the
    repository. Section 4.5 describes the three kinds of statement as
    "if not exists": a statement whose name is already taken leaves the
    schema as it is ("never drops or alters existing tables"); otherwise
    the object is added. The refusals are those of PostgreSQL for these
    statements: a foreign key whose target is missing, is not a key or
    has another type, and an index on a missing table or column. Only
    extensions, tables and indexes are represented. *)
Definition apply_ddl (st : Stmt) (s : Schema) : Error + Schema :=
  match st with
  | CreateExtensionIfNotExists name =>
      inr (mkSchema ({[name]} ∪ extensions s) (tables s) (indexes s))
  | CreateTableIfNotExists name columns =>
      if relation_exists s name then inr s
      else
        match check_references s (references columns) with
        | Some e => inl e
        | None =>
            inr (mkSchema (extensions s) (<[name := columns]> (tables s))
                          (indexes s))
        end
  | CreateIndexIfNotExists name table column =>
      if relation_exists s name then inr s
      else
        match tables s !! table with
        | None => inl (relation_missing table)
        | Some columns =>
            if has_column column columns then
              inr (mkSchema (extensions s) (tables s)
                            (<[name := (table, column)]> (indexes s)))
            else inl (column_missing column)
        end
  | _ => inr s
  end.

(** Modelled from the spec: the PostgreSQL server is not part of the
    repository. Section 4.5 and testable property 6 rely on a
    transaction being all-or-nothing: [BEGIN] opens a working copy of
    the committed schema, statements inside the transaction change the
    working copy only, [COMMIT] makes the working copy the committed
    schema and [ROLLBACK] discards it. Outside a transaction a statement
    changes the committed schema at once. Text sent through [SQL] is not
    interpreted. *)
Definition run_stmt (st : Stmt) (d : Db) : Error + Db :=
  match st with
  | BEGIN => inr (mkDb (committed d) (Some (default (committed d) (txn d))))
  | COMMIT => inr (mkDb (default (committed d) (txn d)) None)
  | ROLLBACK => inr (mkDb (committed d) None)
  | SQL _ _ => inr d
  | ddl =>
      match txn d with
      | Some work =>
          match apply_ddl ddl work with
          | inl e => inl e
          | inr work' => inr (mkDb (committed d) (Some work'))
          end
      | None =>
          match apply_ddl ddl (committed d) with
          | inl e => inl e
          | inr s' => inr (mkDb s' None)
          end
      end
  end.

(** ** The world the module runs in *)

Definition ClientId := nat.
Definition Rows := list (list Value).

(** What the outside world answers to the next statement: it runs and
    returns rows, or it fails (connection lost, permission denied, ...)
    without effect. *)
Inductive Outcome : Type :=
| Runs (rows : Rows)
| Fails (e : Error).

Inductive ConsoleLine : Type :=
| ConsoleInfo (msg : string)
| ConsoleError (msg : string) (err : Error).

Record World : Type := mkWorld {
  ending : bool;                    (* [pool.end()] has been called *)
  connect_error : option Error;     (* why the pool cannot connect, if so *)
  outcomes : list Outcome;          (* answers to the coming statements *)
  db : Db;
  next_client : ClientId;           (* handle of the next connection *)
  checked_out : gset ClientId;      (* connections acquired, not released *)
  trace : list (ClientId * Stmt);   (* statements sent, oldest first *)
  console : list ConsoleLine        (* lines logged, oldest first *)
}.

(** The world a freshly loaded module finds: a pool that has handed out
    nothing, and no transaction open. *)
Definition boot_world (s : Schema) (connect_error : option Error)
    (outcomes : list Outcome) : World :=
  mkWorld false connect_error outcomes (mkDb s None) 0 ∅ [] [].

(** ** Asynchronous code as a state-and-exception monad *)

(** An [async] function, run to completion: from a world to the world
    after it, with the value its promise resolves to or the error it
    rejects with. [await] is sequencing. *)
Definition M (A : Type) : Type := World → (Error + A) * World.

Global Instance M_ret : MRet M := λ A (a : A) w, (inr a, w).

Global Instance M_bind : MBind M := λ A B (f : A → M B) (m : M A) w,
  match m w with
  | (inl e, w') => (inl e, w')
  | (inr a, w') => f a w'
  end.

Definition throw {A : Type} (e : Error) : M A := λ w, (inl e, w).

(** [try { body } catch (err) { handler }]. *)
Definition try_catch {A : Type} (body : M A) (handler : Error → M A) : M A :=
  λ w,
    match body w with
    | (inl err, w') => handler err w'
    | (inr a, w') => (inr a, w')
    end.

(** [try { body } finally { cleanup }]: the cleanup runs on both exits,
    and an error of its own replaces the outcome of the body. *)
Definition try_finally {A : Type} (body : M A) (cleanup : M unit) : M A :=
  λ w,
    match body w with
    | (r, w') =>
        match cleanup w' with
        | (inl e, w'') => (inl e, w'')
        | (inr _, w'') => (r, w'')
        end
    end.

Definition console_info (msg : string) : M unit := λ w,
  (inr (),
   mkWorld (ending w) (connect_error w) (outcomes w) (db w) (next_client w)
           (checked_out w) (trace w) (console w ++ [ConsoleInfo msg])).

Definition console_error (msg : string) (err : Error) : M unit := λ w,
  (inr (),
   mkWorld (ending w) (connect_error w) (outcomes w) (db w) (next_client w)
           (checked_out w) (trace w) (console w ++ [ConsoleError msg err])).

(** ** The [pg] pool and its clients *)

Definition pool_closed : Error :=
  mkError ConnectionError "Cannot use a pool after calling end on the pool".

Definition pool_ended_twice : Error :=
  mkError ConnectionError "Called end on pool more than once".

Definition double_release : Error :=
  mkError ConnectionError
    "Release called on client which has already been released to the pool.".

(** Modelled from the spec: the [Pool] class of [pg] is not part of the
    repository. Section 4.1: [acquireConnection()] returns a connection
    handle checked out from the pool, or fails with a [ConnectionError]
    if the pool cannot produce one; use of the pool after shutdown fails
    with [ConnectionError]. Waiting for a free connection is not
    modelled. *)
Definition pool_connect : M ClientId := λ w,
  if ending w then (inl pool_closed, w)
  else
    match connect_error w with
    | Some e => (inl e, w)
    | None =>
        let client := next_client w in
        (inr client,
         mkWorld (ending w) (connect_error w) (outcomes w) (db w)
                 (S client) ({[client]} ∪ checked_out w)
                 (trace w) (console w))
    end.

(** Modelled from the spec: the [Pool] class of [pg] is not part of the
    repository. Section 4.1: [shutdown()] closes the pool, and a second
    call may itself fail if the pool is already closed. *)
Definition pool_end : M unit := λ w,
  if ending w then (inl pool_ended_twice, w)
  else
    (inr (),
     mkWorld true (connect_error w) (outcomes w) (db w) (next_client w)
             (checked_out w) (trace w) (console w)).

(** Modelled from the spec: the client class of [pg] is not part of the
    repository. [client.release()] returns the handle to the pool
    (section 4.1: the caller "MUST release it"); releasing a handle that
    is not checked out is an error. *)
Definition client_release (client : ClientId) : M unit := λ w,
  if decide (client ∈ checked_out w) then
    (inr (),
     mkWorld (ending w) (connect_error w) (outcomes w) (db w) (next_client w)
             (checked_out w ∖ {[client]}) (trace w) (console w))
  else (inl double_release, w).

(** Modelled from the spec: the client class of [pg] is not part of the
    repository. [client.query(...)] sends one statement on the
    connection. Section 4.3: it returns the result rows or fails with
    the underlying database error. The statement is recorded as sent;
    then either the outside world makes it fail, or the database runs
    it. *)
Definition client_query (client : ClientId) (st : Stmt) : M Rows := λ w,
  let sent := trace w ++ [(client, st)] in
  let rest := tail (outcomes w) in
  let failed e :=
    (inl e,
     mkWorld (ending w) (connect_error w) rest (db w) (next_client w)
             (checked_out w) sent (console w)) in
  let ran rows d :=
    (inr rows,
     mkWorld (ending w) (connect_error w) rest d (next_client w)
             (checked_out w) sent (console w)) in
  match head (outcomes w) with
  | Some (Fails e) => failed e
  | o =>
      match run_stmt st (db w) with
      | inl e => failed e
      | inr d =>
          ran (match o with Some (Runs rows) => rows | _ => [] end) d
      end
  end.

(** Modelled from the spec: the [Pool] class of [pg] is not part of the
    repository. Section 4.3: [pool.query] runs the query on "an
    automatically acquired-and-released connection". A string comes with
    an optional value list; a query object carries its own values, which
    a value list given next to it would replace. *)
Definition pool_query (textOrConfig : string + QueryConfig Value)
    (vals : option (list Value)) : M Rows :=
  let st :=
    match textOrConfig with
    | inl t => SQL t (default [] vals)
    | inr config => SQL (text config) (default (values config) vals)
    end in
  client ← pool_connect;
  try_finally (client_query client st) (client_release client).

(** ** The exported operations *)

(** Lines 32-37. [typeof textOrConfig === 'string'] is the left
    injection; [params], declared optional, is [None] when omitted. In
    the second branch [pool.query] is called with one argument. *)
Definition query (textOrConfig : string + QueryConfig Value)
    (params : option (list Value)) : M Rows :=
  match textOrConfig with
  | inl t => pool_query (inl t) params
  | inr config => pool_query (inr config) None
  end.

(** Lines 40-43. *)
Definition getClient : M ClientId :=
  client ← pool_connect;
  mret client.

(** Lines 49-112: the body of the [try] block of [init]. *)
Definition init_transaction (client : ClientId) : M unit :=
  client_query client BEGIN;;
  client_query client create_pgcrypto;;
  client_query client create_users;;
  client_query client create_sessions;;
  client_query client create_verification_tokens;;
  client_query client create_chat_sessions;;
  client_query client create_idx_sessions_user_id;;
  client_query client create_idx_chat_user_id;;
  client_query client create_idx_verification_identifier;;
  client_query client COMMIT;;
  console_info
    "Database initialized (users, sessions, verification_tokens, chat_sessions)".

(** Lines 113-117: the [catch] block of [init]. *)
Definition init_recover (client : ClientId) (err : Error) : M unit :=
  client_query client ROLLBACK;;
  console_error "Failed to initialize database schema" err;;
  throw err.

(** Lines 46-121. [pool.connect()] is awaited before the [try], so its
    failure leaves [init] with nothing to roll back or release. *)
Definition init : M unit :=
  client ← pool_connect;
  try_finally
    (try_catch (init_transaction client) (init_recover client))
    (client_release client).

(** Lines 127-129. *)
Definition closePool : M unit :=
  pool_end.

(** What a successful import of the module exports: the pool and the
    settled [ready] promise. *)
Record Exports : Type := mkExports {
  pool : PoolConfig;
  ready : Error + unit
}.

(** The whole module, top to bottom: the guard throws before anything
    else happens; otherwise the pool is built and [init()] is started
    (line 124), whose rejection stays inside [ready]. [s],
    [connect_error] and [outcomes] describe the database the connection
    string leads to. *)
Definition load_module (env : Env) (s : Schema)
    (connect_error : option Error) (outcomes : list Outcome)
    : Error + Exports * World :=
  match load_pool env with
  | inl e => inl e
  | inr config =>
      match init (boot_world s connect_error outcomes) with
      | (r, w) => inr (mkExports config r, w)
      end
  end.

(** The statements of the bootstrap transaction, in source order. *)
Definition bootstrap_statements : list Stmt :=
  [ BEGIN;
    create_pgcrypto;
    create_users;
    create_sessions;
    create_verification_tokens;
    create_chat_sessions;
    create_idx_sessions_user_id;
    create_idx_chat_user_id;
    create_idx_verification_identifier;
    COMMIT ].

(** ** Reasoning about statement sequences *)

(** [send_all_then client sts k]: send the statements one after the
    other, then continue with [k]. [init_transaction] is an instance by
    unfolding. *)
Fixpoint send_all_then {A : Type} (client : ClientId) (sts : list Stmt)
    (k : M A) : M A :=
  match sts with
  | [] => k
  | st :: rest => client_query client st;; send_all_then client rest k
  end.

(** The database after a list of statements that all run. *)
Fixpoint run_stmts (sts : list Stmt) (d : Db) : option Db :=
  match sts with
  | [] => Some d
  | st :: rest =>
      match run_stmt st d with
      | inl _ => None
      | inr d' => run_stmts rest d'
      end
  end.

(** The schema after a list of statements that all run, outside or
    inside one transaction. *)
Fixpoint apply_all (sts : list Stmt) (s : Schema) : option Schema :=
  match sts with
  | [] => Some s
  | st :: rest =>
      match apply_ddl st s with
      | inl _ => None
      | inr s' => apply_all rest s'
      end
  end.

(** The statements between [BEGIN] and [COMMIT]. *)
Definition bootstrap_ddl : list Stmt :=
  [ create_pgcrypto;
    create_users;
    create_sessions;
    create_verification_tokens;
    create_chat_sessions;
    create_idx_sessions_user_id;
    create_idx_chat_user_id;
    create_idx_verification_identifier ].

(** The pool's side of the world: nothing acquired, released or closed. *)
Definition same_pool (w w' : World) : Prop :=
  ending w' = ending w ∧ connect_error w' = connect_error w ∧
  next_client w' = next_client w ∧ checked_out w' = checked_out w.

(** A statement that neither ends nor aborts a transaction. *)
Definition keeps_txn (st : Stmt) : Prop :=
  match st with
  | COMMIT | ROLLBACK => False
  | _ => True
  end.

(** What a statement asks for is there: the extension, or a relation of
    the name. *)
Definition established (st : Stmt) (s : Schema) : Prop :=
  match st with
  | CreateExtensionIfNotExists name => name ∈ extensions s
  | CreateTableIfNotExists name _ => relation_exists s name = true
  | CreateIndexIfNotExists name _ _ => relation_exists s name = true
  | _ => True
  end.

(** Nothing of [s] is missing or different in [s']. *)
Definition schema_le (s s' : Schema) : Prop :=
  extensions s ⊆ extensions s' ∧ tables s ⊆ tables s' ∧
  indexes s ⊆ indexes s'.

Definition runs (o : Outcome) : Prop :=
  match o with
  | Runs _ => True
  | Fails _ => False
  end.

(** No failure comes from outside the module: the pool is open and can
    connect, and no statement is made to fail. *)
Definition fault_free (w : World) : Prop :=
  ending w = false ∧ connect_error w = None ∧ Forall runs (outcomes w).

(** ** Messages, sample errors and sample databases *)

Definition initialized_message : string :=
  "Database initialized (users, sessions, verification_tokens, chat_sessions)".

Definition failed_message : string :=
  "Failed to initialize database schema".

Definition missing_url : Error :=
  mkError ConfigurationError "Missing DATABASE_URL environment variable".

Definition table_failure : Error :=
  mkError QueryError "permission denied for schema public".

Definition connection_lost : Error :=
  mkError ConnectionError "Connection terminated unexpectedly".

(** The statement as a line of SQL, column lists left out. *)
Definition describe (st : Stmt) : string :=
  match st with
  | BEGIN => "BEGIN"
  | COMMIT => "COMMIT"
  | ROLLBACK => "ROLLBACK"
  | CreateExtensionIfNotExists name =>
      "CREATE EXTENSION IF NOT EXISTS " +:+ name
  | CreateTableIfNotExists name _ =>
      "CREATE TABLE IF NOT EXISTS " +:+ name
  | CreateIndexIfNotExists name table column =>
      "CREATE INDEX IF NOT EXISTS " +:+ name +:+ " ON " +:+ table
        +:+ "(" +:+ column +:+ ")"
  | SQL t _ => t
  end.

(** The schema the bootstrap builds on an empty database. *)
Definition bootstrapped : Schema :=
  default empty_schema (apply_all bootstrap_ddl empty_schema).

(** A database that already has a [users] table of another shape. *)
Definition legacy_schema : Schema :=
  mkSchema ∅ {["users" := [mkColumn "id" TText [PrimaryKey]]]} ∅.

(** How a run of [init] that got its connection ends. *)
Inductive init_ending (w : World) (c : ClientId) (w1 : World)
    : Error + unit → World → Prop :=
| init_committed wt w' :
    init_transaction c w1 = (inr (), wt) →
    trace w' = trace w ++ (pair c <$> bootstrap_statements) →
    run_stmts bootstrap_statements (db w) = Some (db w') →
    outcomes w' = drop (length bootstrap_statements) (outcomes w) →
    console w' = console w ++ [ConsoleInfo initialized_message] →
    init_ending w c w1 (inr ()) w'
| init_rolled_back n st e wf rq wq e' w' :
    bootstrap_statements !! n = Some st →
    init_transaction c w1 = (inl e, wf) →
    trace wf = trace w ++ (pair c <$> take (S n) bootstrap_statements) →
    client_query c ROLLBACK wf = (rq, wq) →
    trace w' = trace wf ++ [(c, ROLLBACK)] →
    committed (db w') = committed (db w) →
    match rq with
    | inl er => e' = er
    | inr _ => e' = e ∧ txn (db w') = None ∧
               console w' = console w ++ [ConsoleError failed_message e]
    end →
    init_ending w c w1 (inl e') w'.

(** ** Measures and invariants used in further properties *)

(** The number of dollar signs in a text. *)
Fixpoint dollars (s : string) : nat :=
  match s with
  | "" => 0
  | String a rest => (if Ascii.eqb a "$"%char then 1 else 0) + dollars rest
  end.

(** The dollar signs of all fragments together. *)
Definition dollars_in (fragments : list string) : nat :=
  foldr (λ f n, dollars f + n) 0 fragments.

(** The handles that are checked out were handed out by the pool:
    [pool_connect] numbers them from [next_client] on. *)
Definition pool_wf (w : World) : Prop :=
  ∀ c, c ∈ checked_out w → c < next_client w.

(** A database with a [users] table of an earlier, shorter shape. *)
Definition older_schema : Schema :=
  mkSchema ∅
    {["users" := [mkColumn "id" TUuid [PrimaryKey];
                  mkColumn "email" TText [Unique]]]} ∅.

(** The name of the relation a statement creates, if it creates one. *)
Definition creates (st : Stmt) : option string :=
  match st with
  | CreateTableIfNotExists name _ => Some name
  | CreateIndexIfNotExists name _ _ => Some name
  | _ => None
  end.

(** A database whose [sessions] table has no [user_id] column. *)
Definition stale_schema : Schema :=
  mkSchema ∅ {["sessions" := [mkColumn "id" TUuid [PrimaryKey]]]} ∅.

(** * Lemmas *)

(** ** The loop of [sql] *)

Section sql_facts.
Context {V : Type}.
Implicit Types (strings : list string) (vals params : list V).

Lemma append_nil_l (a : string) : "" +:+ a = a.
Proof. reflexivity. Qed.

Lemma append_cons x (a b : string) : String x a +:+ b = String x (a +:+ b).
Proof. reflexivity. Qed.

Lemma append_assoc (a b c : string) : (a +:+ b) +:+ c = a +:+ (b +:+ c).
Proof.
  induction a as [|x a IH]; [done|]. by rewrite !append_cons, IH.
Qed.

Lemma append_nil_r (a : string) : a +:+ "" = a.
Proof.
  induction a as [|x a IH]; [done|]. by rewrite append_cons, IH.
Qed.

Lemma placeholder_inj (i j : nat) : placeholder i = placeholder j → i = j.
Proof.
  unfold placeholder. rewrite !append_cons, !append_nil_l.
  intros H. injection H as H. by apply (inj pretty) in H.
Qed.

(** Loop invariant: at index [i] the first [i] vals (all of them,
    once [i] is past the end) have been pushed; the rest of the loop
    appends the numbered rendering of the remaining fragments and
    pushes the next vals, as many as there are fragments left. *)
Lemma sql_loop_spec strings vals i txt params :
  length params = i `min` length vals →
  sql_loop strings vals i txt params =
    mkQueryConfig (txt +:+ numbered strings i (length vals))
                  (params ++ take (length strings) (drop i vals)).
Proof.
  revert i txt params.
  induction strings as [|s rest IH]; intros i txt params Hlen; simpl.
  - by rewrite append_nil_r, app_nil_r.
  - destruct (vals !! i) as [v|] eqn:Hv.
    + pose proof (lookup_lt_Some _ _ _ Hv) as Hlt.
      rewrite (IH (S i)) by (rewrite length_app, Hlen; simpl length; lia).
      rewrite length_app, Hlen. simpl.
      replace (i `min` length vals + 1) with (S i) by lia.
      rewrite decide_True by done.
      rewrite (drop_S _ _ _ Hv). simpl.
      rewrite <- app_assoc. simpl.
      rewrite !append_assoc. reflexivity.
    + pose proof (lookup_ge_None_1 _ _ Hv) as Hge.
      rewrite (IH (S i)) by lia.
      rewrite decide_False by lia.
      rewrite (drop_ge vals i) by lia. rewrite drop_ge by lia.
      rewrite take_nil. simpl.
      rewrite !append_assoc, append_nil_l. reflexivity.
Qed.

Lemma sql_text strings vals :
  text (sql strings vals) = numbered strings 0 (length vals).
Proof. unfold sql. by rewrite sql_loop_spec by (simpl; lia). Qed.

Lemma sql_values strings vals :
  values (sql strings vals) = take (length strings) vals.
Proof. unfold sql. by rewrite sql_loop_spec by (simpl; lia). Qed.

(** With one more fragment than vals, [numbered] is [interleave]. *)
Lemma numbered_interleave strings i n :
  length strings = S n →
  numbered strings i (i + n) = interleave strings (S i).
Proof.
  revert i n. induction strings as [|f rest IH]; intros i n Hlen; [done|].
  destruct rest as [|g rest].
  - simpl in *. rewrite decide_False by lia. by rewrite append_nil_r.
  - destruct n as [|n]; [simpl in Hlen; lia|].
    change (numbered (f :: g :: rest) i (i + S n))
      with (f +:+ (if decide (i < i + S n) then placeholder (S i) else "")
              +:+ numbered (g :: rest) (S i) (i + S n)).
    rewrite decide_True by lia.
    replace (i + S n) with (S i + n) by lia.
    rewrite IH by (simpl in *; lia).
    reflexivity.
Qed.

(** Once the vals are used up, the remaining fragments are appended
    unchanged. *)
Lemma numbered_past strings i n :
  n ≤ i → numbered strings i n = join strings.
Proof.
  revert i. induction strings as [|f rest IH]; intros i Hle; [done|].
  simpl. rewrite decide_False by lia. simpl. by rewrite IH by lia.
Qed.

Lemma numbered_app strings extra i n :
  numbered (strings ++ extra) i n =
    numbered strings i n +:+ numbered extra (i + length strings) n.
Proof.
  revert i. induction strings as [|f rest IH]; intros i; simpl.
  - by rewrite Nat.add_0_r.
  - rewrite IH. replace (S i + length rest) with (i + S (length rest)) by lia.
    by rewrite !append_assoc.
Qed.

End sql_facts.

(** ** Statement sequences *)

Section statements.
Implicit Types (w : World) (d : Db) (s : Schema) (st : Stmt)
  (sts : list Stmt) (c : ClientId).

Lemma tail_drop {A} (l : list A) : tail l = drop 1 l.
Proof. by destruct l. Qed.

Lemma same_pool_refl w : same_pool w w.
Proof. by unfold same_pool. Qed.

Lemma same_pool_trans w1 w2 w3 :
  same_pool w1 w2 → same_pool w2 w3 → same_pool w1 w3.
Proof. unfold same_pool. intros (?&?&?&?) (?&?&?&?). repeat split; congruence. Qed.

(** One statement: what [client_query] does to the world. *)
Lemma client_query_inv c st w r w' :
  client_query c st w = (r, w') →
  same_pool w w' ∧ console w' = console w ∧
  trace w' = trace w ++ [(c, st)] ∧
  outcomes w' = tail (outcomes w) ∧
  match r with
  | inl _ => db w' = db w
  | inr _ => run_stmt st (db w) = inr (db w')
  end.
Proof.
  unfold client_query, same_pool. intros H.
  destruct (head (outcomes w)) as [[rows|e]|];
    [destruct (run_stmt st (db w)) as [e|d] eqn:Hrun | |
     destruct (run_stmt st (db w)) as [e|d] eqn:Hrun];
    inversion H; subst; simpl; auto 10.
Qed.

(** A statement the outside world lets run fails only if the database
    refuses it. *)
Lemma client_query_runs c st w d :
  Forall runs (outcomes w) → run_stmt st (db w) = inr d →
  ∃ rows w', client_query c st w = (inr rows, w') ∧ db w' = d.
Proof.
  intros Hruns Hrun. unfold client_query.
  destruct (outcomes w) as [|[rows|e] rest] eqn:Ho; simpl; rewrite ?Hrun.
  - eauto.
  - eauto.
  - apply Forall_cons in Hruns as [[] _].
Qed.

Lemma send_all_then_cons {A} c st sts (k : M A) w :
  send_all_then c (st :: sts) k w =
    match client_query c st w with
    | (inl e, w') => (inl e, w')
    | (inr _, w') => send_all_then c sts k w'
    end.
Proof. reflexivity. Qed.

(** A sequence of statements either runs to its end, or stops at the
    first statement that fails, with the statements before it run and
    the failing one sent. *)
Lemma send_all_then_spec {A} c sts (k : M A) w :
  (∃ w1, send_all_then c sts k w = k w1 ∧
         same_pool w w1 ∧ console w1 = console w ∧
         trace w1 = trace w ++ (pair c <$> sts) ∧
         outcomes w1 = drop (length sts) (outcomes w) ∧
         run_stmts sts (db w) = Some (db w1))
  ∨
  (∃ n st e w1, sts !! n = Some st ∧
         send_all_then c sts k w = (inl e, w1) ∧
         same_pool w w1 ∧ console w1 = console w ∧
         trace w1 = trace w ++ (pair c <$> take (S n) sts) ∧
         outcomes w1 = drop (S n) (outcomes w) ∧
         run_stmts (take n sts) (db w) = Some (db w1)).
Proof.
  revert w. induction sts as [|st sts IH]; intros w.
  - left. exists w. simpl. rewrite app_nil_r.
    eauto 10 using same_pool_refl.
  - rewrite send_all_then_cons.
    destruct (client_query c st w) as [[e|rows] w'] eqn:Hq;
      apply client_query_inv in Hq as (Hp & Hc & Ht & Ho & Hd).
    + right. exists 0, st, e, w'. simpl. rewrite <- Hd, <- tail_drop.
      eauto 10.
    + destruct (IH w') as [(w1 & Hk & Hp1 & Hc1 & Ht1 & Ho1 & Hd1)
                          |(n & st' & e & w1 & Hl & Hk & Hp1 & Hc1 & Ht1 & Ho1 & Hd1)].
      * left. exists w1. simpl. rewrite Hd.
        rewrite Ht1, Ht, <- app_assoc. rewrite Ho1, Ho, tail_drop, drop_drop.
        split_and!; eauto using same_pool_trans; try congruence.
      * right. exists (S n), st', e, w1.
        cbn [take lookup list_lookup fmap list_fmap run_stmts].
        rewrite Hd.
        rewrite Ht1, Ht, <- app_assoc. rewrite Ho1, Ho, tail_drop, drop_drop.
        split_and!; eauto using same_pool_trans; try congruence.
Qed.

End statements.

Section database.
Implicit Types (d : Db) (s : Schema) (st : Stmt) (sts : list Stmt).

Lemma schema_le_refl s : schema_le s s.
Proof. by unfold schema_le. Qed.

Lemma schema_le_trans s1 s2 s3 :
  schema_le s1 s2 → schema_le s2 s3 → schema_le s1 s3.
Proof.
  unfold schema_le. intros (?&?&?) (?&?&?).
  split_and!; etrans; eauto.
Qed.

Lemma relation_exists_true s name :
  relation_exists s name = true ↔
  is_Some (tables s !! name) ∨ is_Some (indexes s !! name).
Proof.
  unfold relation_exists.
  rewrite orb_true_iff, !bool_decide_eq_true. done.
Qed.

Lemma relation_exists_false s name :
  relation_exists s name = false →
  tables s !! name = None ∧ indexes s !! name = None.
Proof.
  unfold relation_exists.
  rewrite orb_false_iff, !bool_decide_eq_false, <- !eq_None_not_Some. done.
Qed.

Lemma relation_exists_le s s' name :
  schema_le s s' → relation_exists s name = true →
  relation_exists s' name = true.
Proof.
  intros (_ & Ht & Hi). rewrite !relation_exists_true.
  intros [[x Hx]|[x Hx]]; [left|right]; exists x; by eapply lookup_weaken.
Qed.

(** "If not exists": a statement only ever adds to the schema. *)
Lemma apply_ddl_le st s s' : apply_ddl st s = inr s' → schema_le s s'.
Proof.
  unfold schema_le.
  destruct st as [| | |name|name columns|name table column|t v];
    simpl; intros H; try (by inversion H).
  - inversion H; subst; simpl. split_and!; [set_solver|done|done].
  - destruct (relation_exists s name) eqn:Hn; [by inversion H|].
    apply relation_exists_false in Hn as [Hn _].
    destruct (check_references _ _); inversion H; subst; simpl.
    split_and!; [done| by apply insert_subseteq |done].
  - destruct (relation_exists s name) eqn:Hn; [by inversion H|].
    apply relation_exists_false in Hn as [_ Hn].
    destruct (tables s !! table); [|by inversion H].
    destruct (has_column _ _); inversion H; subst; simpl.
    split_and!; [done|done| by apply insert_subseteq].
Qed.

(** After it has run, what a statement asks for is there. *)
Lemma apply_ddl_established st s s' :
  apply_ddl st s = inr s' → established st s'.
Proof.
  destruct st as [| | |name|name columns|name table column|t v];
    simpl; intros H; try done.
  - inversion H; subst; simpl. set_solver.
  - destruct (relation_exists s name) eqn:Hn; [by inversion H; subst|].
    destruct (check_references _ _); inversion H; subst.
    apply relation_exists_true. left. simpl.
    rewrite lookup_insert_eq. eauto.
  - destruct (relation_exists s name) eqn:Hn; [by inversion H; subst|].
    destruct (tables s !! table); [|by inversion H].
    destruct (has_column _ _); inversion H; subst.
    apply relation_exists_true. right. simpl.
    rewrite lookup_insert_eq. eauto.
Qed.

Lemma established_le st s s' :
  established st s → schema_le s s' → established st s'.
Proof.
  intros He Hle. pose proof Hle as (Hx & _ & _).
  destruct st; simpl in *; try done.
  - set_solver.
  - by eapply relation_exists_le.
  - by eapply relation_exists_le.
Qed.

(** A statement whose object is there changes nothing. *)
Lemma apply_ddl_noop st s : established st s → apply_ddl st s = inr s.
Proof.
  destruct st; simpl; intros He; try done.
  - destruct s as [ext tbl idx]. simpl in *.
    do 2 f_equal. by apply subseteq_union_1_L, singleton_subseteq_l.
  - by rewrite He.
  - by rewrite He.
Qed.

Lemma apply_all_le sts s s' : apply_all sts s = Some s' → schema_le s s'.
Proof.
  revert s. induction sts as [|st sts IH]; intros s; simpl.
  - intros [= ->]. apply schema_le_refl.
  - destruct (apply_ddl st s) as [e|s1] eqn:H1; [done|].
    intros H. eapply schema_le_trans; eauto using apply_ddl_le.
Qed.

Lemma apply_all_established sts s s' :
  apply_all sts s = Some s' → Forall (λ st, established st s') sts.
Proof.
  revert s. induction sts as [|st sts IH]; intros s; simpl; [by constructor|].
  destruct (apply_ddl st s) as [e|s1] eqn:H1; [done|].
  intros H. constructor; eauto.
  eapply established_le; eauto using apply_ddl_established, apply_all_le.
Qed.

Lemma apply_all_noop sts s :
  Forall (λ st, established st s) sts → apply_all sts s = Some s.
Proof.
  induction 1 as [|st sts He _ IH]; simpl; [done|].
  by rewrite apply_ddl_noop.
Qed.

(** Running the same statements again on their own result is a
    no-op. *)
Lemma apply_all_idempotent sts s s' :
  apply_all sts s = Some s' → apply_all sts s' = Some s'.
Proof. eauto using apply_all_noop, apply_all_established. Qed.

(** Inside a transaction, a statement that does not end it changes
    the working copy only. *)
Lemma run_stmt_in_txn st d d1 work :
  txn d = Some work → keeps_txn st → run_stmt st d = inr d1 →
  committed d1 = committed d ∧
  ∃ w1, txn d1 = Some w1 ∧ apply_ddl st work = inr w1.
Proof.
  intros Ht Hk. unfold run_stmt.
  destruct st; simpl in Hk; try done; rewrite ?Ht;
    try (destruct (apply_ddl _ work) as [?|w1] eqn:Ha; [done|]);
    intros [= <-]; eauto.
Qed.

Lemma run_stmt_from_apply st c work w1 :
  keeps_txn st → apply_ddl st work = inr w1 →
  run_stmt st (mkDb c (Some work)) = inr (mkDb c (Some w1)).
Proof.
  intros Hk Ha. unfold run_stmt.
  destruct st; simpl in Hk; try done; cbn [txn committed]; rewrite ?Ha;
    try done.
  - by injection Ha as <-.
  - by injection Ha as <-.
Qed.

(** Inside a transaction, statements that do not end it leave the
    committed schema alone. *)
Lemma run_stmts_in_txn sts d d' work :
  txn d = Some work → Forall keeps_txn sts →
  run_stmts sts d = Some d' →
  committed d' = committed d ∧
  ∃ work', txn d' = Some work' ∧ apply_all sts work = Some work'.
Proof.
  intros Ht Hk. revert d work Ht.
  induction Hk as [|st sts Hst _ IH]; intros d work Ht; simpl.
  - intros [= <-]. eauto.
  - destruct (run_stmt st d) as [e|d1] eqn:H1; [done|]. intros Hr.
    destruct (run_stmt_in_txn _ _ _ _ Ht Hst H1) as (Hc & w1 & Ht1 & Ha).
    destruct (IH _ _ Ht1 Hr) as (Hc' & work' & Ht' & Ha').
    rewrite Ha. split; [congruence|eauto].
Qed.

Lemma bootstrap_ddl_keeps_txn : Forall keeps_txn bootstrap_ddl.
Proof. repeat constructor. Qed.

Lemma bootstrap_statements_eq :
  bootstrap_statements = BEGIN :: bootstrap_ddl ++ [COMMIT].
Proof. reflexivity. Qed.

(** A proper prefix of the bootstrap statements never commits. *)
Lemma run_prefix_committed n d d' :
  n < length bootstrap_statements →
  run_stmts (take n bootstrap_statements) d = Some d' →
  committed d' = committed d.
Proof.
  intros Hn. rewrite bootstrap_statements_eq.
  destruct n as [|n]; [by intros [= <-]|].
  rewrite firstn_cons, take_app_le by (simpl in *; lia).
  cbn [run_stmts run_stmt]. intros Hr.
  eapply run_stmts_in_txn in Hr as [Hc _];
    [done|done|apply Forall_take, bootstrap_ddl_keeps_txn].
Qed.

(** The whole transaction, started with no transaction open: the
    result is the schema with all statements applied, committed. *)
Lemma run_bootstrap_committed s d' :
  run_stmts bootstrap_statements (mkDb s None) = Some d' →
  ∃ s', d' = mkDb s' None ∧ apply_all bootstrap_ddl s = Some s'.
Proof.
  rewrite bootstrap_statements_eq. cbn [run_stmts run_stmt].
  generalize bootstrap_ddl_keeps_txn.
  generalize bootstrap_ddl. intros sts Hk.
  assert (∀ d work, txn d = Some work →
            run_stmts (sts ++ [COMMIT]) d = Some d' →
            ∃ s', d' = mkDb s' None ∧ apply_all sts work = Some s') as Hgen.
  { induction Hk as [|st sts Hst _ IH]; intros d work Ht; simpl.
    - rewrite Ht. simpl. intros [= <-]. eauto.
    - destruct (run_stmt st d) as [e|d1] eqn:H1; [done|]. intros Hr.
      destruct (run_stmt_in_txn _ _ _ _ Ht Hst H1) as (_ & w1 & Ht1 & Ha).
      rewrite Ha. eauto. }
  intros Hr. eapply Hgen; [|exact Hr]. reflexivity.
Qed.

(** Conversely, applying the statements to the schema tells what the
    transaction does. *)
Lemma run_bootstrap_from_apply s s' :
  apply_all bootstrap_ddl s = Some s' →
  run_stmts bootstrap_statements (mkDb s None) = Some (mkDb s' None).
Proof.
  rewrite bootstrap_statements_eq. cbn [run_stmts run_stmt].
  generalize bootstrap_ddl_keeps_txn.
  generalize bootstrap_ddl. intros sts Hk.
  assert (∀ work c, apply_all sts work = Some s' →
            run_stmts (sts ++ [COMMIT]) (mkDb c (Some work)) =
              Some (mkDb s' None)) as Hgen.
  { induction Hk as [|st sts Hst _ IH]; intros work c; simpl.
    - by intros [= ->].
    - destruct (apply_ddl st work) as [e|w1] eqn:Ha; [done|]. intros Hr.
      rewrite (run_stmt_from_apply _ c _ _ Hst Ha). eauto. }
  intros Ha. by apply Hgen.
Qed.

End database.

(** ** The structure of [init] *)

Section bootstrap.
Implicit Types (w : World) (c : ClientId) (e : Error).

Lemma init_transaction_unfold c :
  init_transaction c =
    send_all_then c bootstrap_statements (console_info initialized_message).
Proof. reflexivity. Qed.

Lemma pool_connect_inv w c w1 :
  pool_connect w = (inr c, w1) →
  c = next_client w ∧ ending w = false ∧ connect_error w = None ∧
  w1 = mkWorld false None (outcomes w) (db w) (S c)
               ({[c]} ∪ checked_out w) (trace w) (console w).
Proof.
  unfold pool_connect.
  destruct (ending w) eqn:He; [done|].
  destruct (connect_error w) eqn:Hc; [done|].
  by intros [= <- <-].
Qed.

Lemma pool_connect_fail w e w1 :
  pool_connect w = (inl e, w1) → w1 = w ∧ init w = (inl e, w).
Proof.
  intros H. assert (w1 = w) as ->.
  { unfold pool_connect in H. destruct (ending w); [by inversion H|].
    destruct (connect_error w); by inversion H. }
  split; [done|]. unfold init, mbind, M_bind. by rewrite H.
Qed.

Lemma pool_connect_fault_free w :
  fault_free w → ∃ w1, pool_connect w = (inr (next_client w), w1).
Proof.
  intros (He & Hc & _). unfold pool_connect. rewrite He, Hc. eauto.
Qed.

Lemma init_connected w c w1 :
  pool_connect w = (inr c, w1) →
  init w =
    try_finally (try_catch (init_transaction c) (init_recover c))
                (client_release c) w1.
Proof. intros H. unfold init, mbind, M_bind. by rewrite H. Qed.

(** A handle that is checked out is released without error. *)
Lemma client_release_checked_out c w :
  c ∈ checked_out w →
  ∃ w', client_release c w = (inr (), w') ∧
        checked_out w' = checked_out w ∖ {[c]} ∧
        ending w' = ending w ∧ connect_error w' = connect_error w ∧
        outcomes w' = outcomes w ∧ db w' = db w ∧
        next_client w' = next_client w ∧ trace w' = trace w ∧
        console w' = console w.
Proof.
  intros Hin. unfold client_release. rewrite decide_True by done.
  eexists. split; [done|]. simpl. auto 10.
Qed.

(** The [catch] block: [ROLLBACK] is sent; if it runs, the error is
    logged and thrown again, and if it fails, its own error takes the
    place of the original one. *)
Lemma init_recover_spec c e w r w' :
  init_recover c e w = (r, w') →
  same_pool w w' ∧
  trace w' = trace w ++ [(c, ROLLBACK)] ∧
  outcomes w' = tail (outcomes w) ∧
  committed (db w') = committed (db w) ∧
  ∃ rq wq, client_query c ROLLBACK w = (rq, wq) ∧
    match rq with
    | inl er => r = inl er ∧ w' = wq
    | inr _ => r = inl e ∧ txn (db w') = None ∧
               console w' = console w ++ [ConsoleError failed_message e]
    end.
Proof.
  unfold init_recover, mbind, M_bind.
  destruct (client_query c ROLLBACK w) as [[er|rows] wq] eqn:Hq;
    pose proof (client_query_inv _ _ _ _ _ Hq) as (Hp & Hc & Ht & Ho & Hd).
  - intros [= <- <-]. rewrite Hd. split_and!; try done.
    by exists (inl er), wq.
  - unfold console_error, throw. intros [= <- <-]. simpl.
    unfold same_pool in *. simpl. destruct Hp as (?&?&?&?).
    injection Hd as <-. simpl. rewrite Hc.
    split_and!; try done.
    by exists (inr rows), wq.
Qed.

End bootstrap.

Section bootstrap_run.
Implicit Types (w : World) (c : ClientId) (e : Error).

Lemma init_spec w c w1 :
  pool_connect w = (inr c, w1) →
  ∃ r w', init w = (r, w') ∧
    c ∈ checked_out w1 ∧
    checked_out w' = checked_out w1 ∖ {[c]} ∧
    ending w' = false ∧ connect_error w' = None ∧
    next_client w' = S c ∧
    init_ending w c w1 r w'.
Proof.
  intros Hconn. rewrite (init_connected _ _ _ Hconn).
  apply pool_connect_inv in Hconn as (Hc & He & Hce & ->).
  set (w1 := mkWorld _ _ _ _ _ _ _ _).
  assert (c ∈ checked_out w1) as Hin by (simpl; set_solver).
  assert (ending w1 = false ∧ connect_error w1 = None ∧
          next_client w1 = S c ∧ db w1 = db w ∧ trace w1 = trace w ∧
          console w1 = console w ∧ outcomes w1 = outcomes w)
    as (W1 & W2 & W3 & W4 & W5 & W6 & W7) by done.
  clearbody w1.
  unfold try_finally, try_catch.
  destruct (send_all_then_spec c bootstrap_statements
              (console_info initialized_message) w1)
    as [(w2 & Hk & Hp & Hco & Ht & Ho & Hd)
       |(n & st & e & wf & Hl & Hk & Hp & Hco & Ht & Ho & Hd)].
  - rewrite init_transaction_unfold, Hk. unfold console_info.
    destruct Hp as (Hp1 & Hp2 & Hp3 & Hp4).
    match goal with |- context [client_release c ?w] =>
      destruct (client_release_checked_out c w) as (w3 & -> & Hr)
    end; [simpl; by rewrite Hp4|].
    simpl in Hr. destruct Hr as (R1&R2&R3&R4&R5&R6&R7&R8).
    exists (inr ()), w3. split_and!; try done; try congruence.
    eapply init_committed; try congruence.
    by rewrite init_transaction_unfold, Hk.
  - rewrite init_transaction_unfold, Hk.
    destruct (init_recover c e wf) as [r w2] eqn:Hrec.
    apply init_recover_spec in Hrec
      as (Hp' & Ht' & Ho' & Hd' & rq & wq & Hq & Hrq).
    pose proof (same_pool_trans _ _ _ Hp Hp') as (Hp1 & Hp2 & Hp3 & Hp4).
    destruct (client_release_checked_out c w2) as (w3 & -> & Hr);
      [by rewrite Hp4|].
    destruct Hr as (R1&R2&R3&R4&R5&R6&R7&R8).
    assert (committed (db w3) = committed (db w)) as Hcomm.
    { rewrite R5, Hd', <- W4. apply lookup_lt_Some in Hl.
      by eapply run_prefix_committed. }
    assert (∃ e', r = inl e' ∧
              match rq with
              | inl er => e' = er
              | inr _ => e' = e ∧ txn (db w3) = None ∧
                  console w3 = console w ++ [ConsoleError failed_message e]
              end) as (e' & -> & He').
    { destruct rq as [er|rows].
      - destruct Hrq as [-> _]. eauto.
      - destruct Hrq as (-> & Htx & Hcons). exists e.
        rewrite R5, R8, Hcons, Hco, W6. eauto. }
    exists (inl e'), w3. split_and!; try done; try congruence.
    eapply init_rolled_back; eauto; congruence.
Qed.

End bootstrap_run.

(** * Properties *)

(** ** The query builder *)

Lemma numbered_enough (strings : list string) (i n n' : nat) :
  i + length strings ≤ n → i + length strings ≤ n' →
  numbered strings i n = numbered strings i n'.
Proof.
  revert i. induction strings as [|f rest IH]; intros i Hn Hn'; [done|].
  simpl in *. rewrite (IH (S i)) by lia.
  by rewrite !decide_True by lia.
Qed.

(** C1. With one more fragment than values, the text is the fragments
    with [$1], ..., [$n] written between them from left to right, the
    parameter list is the value list, in order, and the text is the same
    whatever the values are (of whatever type): it is made of the
    fragments and the numbering alone, so no value is embedded in it. *)
Theorem sql_well_formed {V : Type} (strings : list string) (vals : list V) :
  length strings = S (length vals) →
  text (sql strings vals) = interleave strings 1 ∧
  values (sql strings vals) = vals ∧
  ∀ (V' : Type) (vals' : list V'),
    length vals' = length vals →
    text (sql strings vals') = text (sql strings vals).
Proof.
  intros Hlen. split_and!.
  - rewrite sql_text. by apply (numbered_interleave strings 0).
  - rewrite sql_values. apply take_ge. lia.
  - intros V' vals' Hlen'. by rewrite !sql_text, Hlen'.
Qed.

(** The example of the specification: two values, three fragments. *)
Lemma sql_well_formed_witness :
  text (sql ["SELECT * FROM t WHERE a = "; " AND b = "; ""]
            [VNum 5; VStr "x"])
    = "SELECT * FROM t WHERE a = $1 AND b = $2" ∧
  values (sql ["SELECT * FROM t WHERE a = "; " AND b = "; ""]
              [VNum 5; VStr "x"])
    = [VNum 5; VStr "x"].
Proof.
  destruct (sql_well_formed
              ["SELECT * FROM t WHERE a = "; " AND b = "; ""]
              [VNum 5; VStr "x"] eq_refl) as (Ht & Hv & _).
  split; [rewrite Ht; reflexivity | exact Hv].
Defined.

(** C8. For every input, fragment number [i] (from 0) is followed by
    [$(i+1)] exactly when there is a value number [i]: the numbering
    starts at [$1] and goes up by one; different positions get different
    placeholders, also when every value is the same [v]; and fragments
    after the first [n + 1] are appended as they are, the builder
    returning its result all the same. *)
Theorem sql_numbering {V : Type} (strings : list string) (vals : list V) :
  text (sql strings vals) = numbered strings 0 (length vals) ∧
  (∀ i j, placeholder i = placeholder j → i = j) ∧
  (∀ (v : V) n,
     text (sql strings (replicate n v)) = numbered strings 0 n) ∧
  (∀ extra,
     length strings = S (length vals) →
     sql (strings ++ extra) vals =
       mkQueryConfig (text (sql strings vals) +:+ join extra) vals).
Proof.
  split_and!.
  - apply sql_text.
  - apply placeholder_inj.
  - intros v n. by rewrite sql_text, length_replicate.
  - intros extra Hlen.
    assert (sql (strings ++ extra) vals =
            mkQueryConfig (text (sql (strings ++ extra) vals))
                          (values (sql (strings ++ extra) vals))) as ->
      by by destruct (sql (strings ++ extra) vals).
    rewrite !sql_text, sql_values, numbered_app.
    rewrite (numbered_past extra) by (simpl; lia).
    rewrite take_ge by (rewrite length_app; lia). done.
Qed.

Lemma sql_numbering_witness :
  sql (["a = "; " AND b = "; ";"] ++ [" -- one"; " -- two"])
      [VStr "x"; VStr "x"]
    = mkQueryConfig "a = $1 AND b = $2; -- one -- two" [VStr "x"; VStr "x"].
Proof.
  destruct (sql_numbering ["a = "; " AND b = "; ";"] [VStr "x"; VStr "x"])
    as (_ & _ & _ & Hextra).
  rewrite (Hextra [" -- one"; " -- two"] eq_refl). reflexivity.
Defined.

(** C9. With at least as many values as fragments, every fragment is
    followed by a placeholder, the parameter list is the first
    [len(fragments)] values, and the values after them play no part in
    the result; the builder returns its result all the same. *)
Theorem sql_excess_values {V : Type} (strings : list string) (vals : list V) :
  length strings ≤ length vals →
  values (sql strings vals) = take (length strings) vals ∧
  length (values (sql strings vals)) = length strings ∧
  text (sql strings vals) = numbered strings 0 (length strings) ∧
  sql strings vals = sql strings (take (length strings) vals).
Proof.
  intros Hlen.
  assert (text (sql strings vals) = numbered strings 0 (length strings)) as Ht.
  { rewrite sql_text. apply numbered_enough; simpl; lia. }
  split_and!.
  - apply sql_values.
  - rewrite sql_values, length_take. lia.
  - exact Ht.
  - assert (∀ q : QueryConfig V, q = mkQueryConfig (text q) (values q)) as Heta
      by by intros [].
    rewrite (Heta (sql strings vals)), (Heta (sql strings (take _ vals))).
    rewrite Ht, !sql_values, sql_text, length_take, take_take.
    f_equal; [|f_equal; lia].
    apply numbered_enough; simpl; lia.
Qed.

Lemma sql_excess_values_witness :
  sql ["a = "; " AND b = "] [VNum 1; VNum 2; VNum 3; VNum 4]
    = mkQueryConfig "a = $1 AND b = $2" [VNum 1; VNum 2].
Proof.
  destruct (sql_excess_values ["a = "; " AND b = "]
              [VNum 1; VNum 2; VNum 3; VNum 4]) as (_ & _ & _ & Heq).
  - simpl. lia.
  - rewrite Heq. reflexivity.
Defined.

(** ** Module load *)

(** C3, as stated, fails for a variable that is set to the empty string:
    it is present in the environment, and the guard [!connectionString]
    throws all the same. *)
Lemma load_module_empty_url_throws :
  ({["DATABASE_URL" := ""]} : Env) !! "DATABASE_URL" = Some "" ∧
  load_module {["DATABASE_URL" := ""]} empty_schema None [] = inl missing_url.
Proof. split; reflexivity. Qed.

(** C3, amended. If [DATABASE_URL] is absent or empty, loading the
    module throws the configuration error and exports nothing: no pool
    is constructed. If it is present and not empty, the module loads and
    its pool is constructed from that string (with [max] 2 and an idle
    timeout of 30000 ms), whatever becomes of the bootstrap. *)
Theorem load_module_guard (env : Env) (s : Schema)
    (connect_error : option Error) (outcomes : list Outcome) :
  (env !! "DATABASE_URL" = None ∨ env !! "DATABASE_URL" = Some "" →
   load_module env s connect_error outcomes = inl missing_url) ∧
  (∀ url, env !! "DATABASE_URL" = Some url → url ≠ "" →
   ∃ r w, load_module env s connect_error outcomes =
            inr (mkExports (mkPoolConfig url 2 30000) r, w)).
Proof.
  unfold load_module, load_pool. split.
  - by intros [-> | ->].
  - intros url -> Hne.
    destruct (init (boot_world s connect_error outcomes)) as [r w].
    exists r, w. by destruct url.
Qed.

Lemma load_module_guard_witness :
  load_module ∅ empty_schema None [] = inl missing_url ∧
  ∃ r w,
    load_module {["DATABASE_URL" := "postgres://db.example/app"]}
                empty_schema None [] =
      inr (mkExports (mkPoolConfig "postgres://db.example/app" 2 30000) r, w).
Proof.
  split.
  - apply (load_module_guard ∅ empty_schema None []). by left.
  - apply (load_module_guard {["DATABASE_URL" := "postgres://db.example/app"]}
             empty_schema None []); [reflexivity | discriminate].
Defined.

(** ** The query executor *)

(** C10. Called with a query object, [query] hands [pool.query] the
    object alone: the result and the world after it are the same
    whatever parameter list came with the call, and the statement sent
    binds the values of the object. *)
Theorem query_config_ignores_params (config : QueryConfig Value)
    (params : option (list Value)) (w : World) :
  query (inr config) params w = query (inr config) None w ∧
  query (inr config) params w = pool_query (inr config) None w ∧
  ∀ c w1, pool_connect w = (inr c, w1) →
    trace ((query (inr config) params w).2) =
      trace w ++ [(c, SQL (text config) (values config))].
Proof.
  split_and!; [done|done|].
  intros c w1 Hconn. unfold query, pool_query, mbind, M_bind.
  rewrite Hconn. unfold try_finally.
  apply pool_connect_inv in Hconn as (_ & _ & _ & ->).
  destruct (client_query c _ _) as [r w2] eqn:Hq.
  apply client_query_inv in Hq as (Hp & _ & Ht & _).
  destruct Hp as (_ & _ & _ & Hco).
  destruct (client_release_checked_out c w2) as (w3 & -> & Hr).
  { rewrite Hco. simpl. by apply elem_of_union_l, elem_of_singleton. }
  destruct Hr as (_&_&_&_&_&_&R7&_). simpl. by rewrite R7, Ht.
Qed.

Lemma query_config_ignores_params_witness :
  trace (query (inr (mkQueryConfig "SELECT $1" [VNum 1]))
               (Some [VNum 2]) (boot_world empty_schema None [])).2
    = [(0, SQL "SELECT $1" [VNum 1])].
Proof.
  destruct (query_config_ignores_params
              (mkQueryConfig "SELECT $1" [VNum 1]) (Some [VNum 2])
              (boot_world empty_schema None [])) as (_ & _ & Ht).
  exact (Ht 0 _ eq_refl).
Defined.

(** ** Shutdown *)

(** C7. Once [closePool] has completed, a query, in either form and
    with any parameters, fails with the [ConnectionError] of a closed
    pool and leaves the world as it is: the pool stays closed, so the
    same holds for every query after it. *)
Theorem query_after_closePool (w w1 : World) :
  closePool w = (inr (), w1) →
  ending w1 = true ∧
  kind pool_closed = ConnectionError ∧
  ∀ textOrConfig params,
    query textOrConfig params w1 = (inl pool_closed, w1).
Proof.
  unfold closePool, pool_end.
  destruct (ending w) eqn:He; [done|]. intros [= <-].
  split_and!; [done|done|].
  by intros [t|config] params.
Qed.

Lemma query_after_closePool_witness :
  let w1 := mkWorld true None [] (mkDb empty_schema None) 0 ∅ [] [] in
  closePool (boot_world empty_schema None []) = (inr (), w1) ∧
  query (inl "SELECT 1") None w1 = (inl pool_closed, w1) ∧
  query (inr (sql ["SELECT "; ""] [VNum 1])) None w1 = (inl pool_closed, w1).
Proof.
  intros w1.
  destruct (query_after_closePool (boot_world empty_schema None []) w1
              eq_refl) as (_ & _ & Hq).
  split; [reflexivity|]. split; apply Hq.
Defined.

(** ** The schema bootstrap *)

Section bootstrap_facts.
Implicit Types (w : World) (c : ClientId) (e : Error).

(** With no failure from outside, statements the database accepts all
    run. *)
Lemma send_all_then_runs {A} c sts (k : M A) w d :
  Forall runs (outcomes w) → run_stmts sts (db w) = Some d →
  ∃ w1, send_all_then c sts k w = k w1 ∧ db w1 = d ∧
        same_pool w w1 ∧ Forall runs (outcomes w1).
Proof.
  revert w. induction sts as [|st sts IH]; intros w Hruns; simpl.
  - intros [= <-]. eauto using same_pool_refl.
  - destruct (run_stmt st (db w)) as [e|d1] eqn:Hrun; [done|]. intros Hd.
    destruct (client_query_runs c st w d1 Hruns Hrun) as (rows & w' & Hq & Hd1).
    pose proof (client_query_inv _ _ _ _ _ Hq) as (Hp & _ & _ & Ho & _).
    destruct (IH w') as (w1 & Hk & Hd' & Hp' & Hr').
    { rewrite Ho, tail_drop. by apply Forall_drop. }
    { by rewrite Hd1. }
    exists w1. unfold mbind, M_bind. rewrite Hq.
    eauto using same_pool_trans.
Qed.

(** With no failure from outside, [init] succeeds whenever the
    database accepts the statements of the transaction. *)
Lemma init_runs w d :
  fault_free w → run_stmts bootstrap_statements (db w) = Some d →
  ∃ w', init w = (inr (), w') ∧ db w' = d.
Proof.
  intros Hff Hd.
  destruct (pool_connect_fault_free w Hff) as (w1 & Hconn).
  rewrite (init_connected _ _ _ Hconn).
  apply pool_connect_inv in Hconn as (_ & _ & _ & ->).
  set (c := next_client w). set (w1 := mkWorld _ _ _ _ _ _ _ _).
  destruct (send_all_then_runs c bootstrap_statements
              (console_info initialized_message) w1 d)
    as (w2 & Hk & Hd2 & (_ & _ & _ & Hco) & _);
    [by destruct Hff as (_ & _ & ?) | done |].
  unfold try_finally, try_catch.
  rewrite init_transaction_unfold, Hk. unfold console_info.
  match goal with |- context [client_release c ?w] =>
    destruct (client_release_checked_out c w) as (w3 & -> & Hr)
  end.
  { simpl. rewrite Hco. simpl. by apply elem_of_union_l, elem_of_singleton. }
  destruct Hr as (_&_&_&_&R5&_). exists w3. by rewrite R5.
Qed.

(** What a successful run leaves behind. *)
Lemma init_success_inv w w' :
  init w = (inr (), w') →
  let c := next_client w in
  ending w' = false ∧ connect_error w' = None ∧
  next_client w' = S c ∧
  trace w' = trace w ++ (pair c <$> bootstrap_statements) ∧
  run_stmts bootstrap_statements (db w) = Some (db w') ∧
  outcomes w' = drop (length bootstrap_statements) (outcomes w).
Proof.
  intros Hinit c.
  destruct (pool_connect w) as [[e|c'] w1] eqn:Hconn.
  - apply pool_connect_fail in Hconn as [_ Hfail]. congruence.
  - destruct (init_spec _ _ _ Hconn) as (r & w'' & Hi & _ & _ & He & Hce & Hn & Hend).
    apply pool_connect_inv in Hconn as (-> & _).
    rewrite Hinit in Hi. injection Hi as <- <-.
    inversion Hend; subst. split_and!; done.
Qed.

Lemma db_no_txn (d : Db) : txn d = None → d = mkDb (committed d) None.
Proof. destruct d as [s t]. simpl. by intros ->. Qed.

End bootstrap_facts.

(** C5. When [init] succeeds, what it sent is, after whatever was sent
    before, the ten statements of the transaction in source order, all
    on the one connection it acquired. *)
Theorem init_success_order (w w' : World) :
  init w = (inr (), w') →
  let c := next_client w in
  next_client w' = S c ∧
  trace w' = trace w ++
    [ (c, BEGIN);
      (c, create_pgcrypto);
      (c, create_users);
      (c, create_sessions);
      (c, create_verification_tokens);
      (c, create_chat_sessions);
      (c, create_idx_sessions_user_id);
      (c, create_idx_chat_user_id);
      (c, create_idx_verification_identifier);
      (c, COMMIT) ] ∧
  (describe ∘ snd) <$> drop (length (trace w)) (trace w') =
    [ "BEGIN";
      "CREATE EXTENSION IF NOT EXISTS pgcrypto";
      "CREATE TABLE IF NOT EXISTS users";
      "CREATE TABLE IF NOT EXISTS sessions";
      "CREATE TABLE IF NOT EXISTS verification_tokens";
      "CREATE TABLE IF NOT EXISTS chat_sessions";
      "CREATE INDEX IF NOT EXISTS idx_sessions_user_id ON sessions(user_id)";
      "CREATE INDEX IF NOT EXISTS idx_chat_user_id ON chat_sessions(user_id)";
      "CREATE INDEX IF NOT EXISTS idx_verification_identifier ON verification_tokens(identifier)";
      "COMMIT" ].
Proof.
  intros Hinit c.
  apply init_success_inv in Hinit as (_ & _ & Hn & Ht & _).
  split_and!; [done|done|].
  rewrite Ht, drop_app_length. reflexivity.
Qed.

Lemma init_success_order_witness :
  let w := boot_world empty_schema None [] in
  init w = (inr (), (init w).2) ∧
  length (trace ((init w).2)) = 10 ∧
  next_client ((init w).2) = 1.
Proof.
  intros w.
  assert (init w = (inr (), (init w).2)) as Hinit by (vm_compute; reflexivity).
  destruct (init_success_order w _ Hinit) as (Hn & Ht & _).
  split; [exact Hinit|]. split; [rewrite Ht; reflexivity | exact Hn].
Defined.

(** C6. Whatever the statements and the [ROLLBACK] do (the world [w]
    is arbitrary), the connection [init] acquired is checked out when
    the transaction starts and is not when [init] has finished, with the
    other connections as they were; if no connection could be acquired
    there is none to release. *)
Theorem init_releases_connection (w : World) :
  (∀ c w1, pool_connect w = (inr c, w1) →
     c ∈ checked_out w1 ∧
     (c ∉ checked_out ((init w).2)) ∧
     checked_out ((init w).2) = checked_out w1 ∖ {[c]}) ∧
  (∀ e w1, pool_connect w = (inl e, w1) →
     checked_out ((init w).2) = checked_out w).
Proof.
  split.
  - intros c w1 Hconn.
    destruct (init_spec _ _ _ Hconn) as (r & w' & -> & Hin & Hout & _).
    simpl. rewrite Hout. split_and!; [done| |done].
    rewrite elem_of_difference, elem_of_singleton. tauto.
  - intros e w1 Hconn. apply pool_connect_fail in Hconn as [_ ->]. done.
Qed.

(** A run in which the creation of [sessions] fails and then the
    [ROLLBACK] fails too. *)
Lemma init_releases_connection_witness :
  let w := boot_world empty_schema None
             [Runs []; Runs []; Runs []; Fails table_failure;
              Fails connection_lost] in
  (init w).1 = inl connection_lost ∧ 0 ∉ checked_out ((init w).2).
Proof.
  intros w. split; [reflexivity|].
  destruct (init_releases_connection w) as [Hrel _].
  destruct (Hrel 0 _ eq_refl) as (_ & Hout & _). exact Hout.
Defined.


(** X16. The path of the [catch] block that works: if a statement of
    the transaction fails with [e] ([BEGIN] included) and the [ROLLBACK]
    that [init] sends next runs, then [init] rejects with [e] itself,
    logged once; the [ROLLBACK] is the last statement sent; the database
    is what it was before [init], with no transaction open; and the
    connection is released. *)
Theorem init_rolls_back_and_rethrows (w : World) (c : ClientId)
    (w1 : World) (e : Error) (wf : World) (rows : Rows) (wq : World) :
  pool_connect w = (inr c, w1) →
  init_transaction c w1 = (inl e, wf) →
  client_query c ROLLBACK wf = (inr rows, wq) →
  ∃ w',
    init w = (inl e, w') ∧
    trace w' = trace wf ++ [(c, ROLLBACK)] ∧
    committed (db w') = committed (db w) ∧
    txn (db w') = None ∧
    console w' = console w ++ [ConsoleError failed_message e] ∧
    (c ∉ checked_out w').
Proof.
  intros Hconn Htx Hrb.
  destruct (init_spec _ _ _ Hconn)
    as (r & w' & Hinit & _ & Hco & _ & _ & _ & Hend).
  inversion Hend as [wt w'' Htx' | n st e0 wf0 rq wq0 e' w'' Hl Htx' Ht Hq Ht' Hc Hrq];
    subst; rewrite Htx in Htx'; [done|].
  injection Htx' as <- <-.
  rewrite Hrb in Hq. injection Hq as <- <-.
  destruct Hrq as (-> & Htxn & Hcons).
  exists w'. split_and!; try done.
  rewrite Hco, elem_of_difference, elem_of_singleton. tauto.
Qed.

(** The second table cannot be created and the [ROLLBACK] runs: [users],
    created earlier in the transaction, does not persist, and the error
    is thrown to the caller. *)
Lemma init_rolls_back_and_rethrows_witness :
  let w := boot_world empty_schema None
             [Runs []; Runs []; Runs []; Fails table_failure] in
  (init w).1 = inl table_failure ∧
  db ((init w).2) = mkDb empty_schema None ∧
  last (trace ((init w).2)) = Some (0, ROLLBACK).
Proof.
  intros w.
  destruct (init_rolls_back_and_rethrows w 0 _ table_failure _ _ _
              eq_refl eq_refl eq_refl)
    as (w' & Hinit & Ht & Hc & Htxn & _).
  rewrite Hinit. simpl. split; [reflexivity|]. split.
  - rewrite (db_no_txn _ Htxn), Hc. reflexivity.
  - rewrite Ht. apply last_snoc.
Defined.

Lemma apply_all_empty : apply_all bootstrap_ddl empty_schema = Some bootstrapped.
Proof. vm_compute. reflexivity. Qed.

Lemma bootstrapped_objects :
  extensions bootstrapped = {["pgcrypto"]} ∧
  dom (tables bootstrapped) =
    {["users"; "sessions"; "verification_tokens"; "chat_sessions"]} ∧
  dom (indexes bootstrapped) =
    {["idx_sessions_user_id"; "idx_chat_user_id";
      "idx_verification_identifier"]} ∧
  size (tables bootstrapped) = 4 ∧
  size (indexes bootstrapped) = 3.
Proof. split_and!; vm_compute; reflexivity. Qed.

(** C4. If a run of [init] succeeds on a database with no transaction
    open, and nothing fails from outside, a second run succeeds too and
    leaves the database exactly as the first run left it. On an empty
    database the first run succeeds, and what is committed is the
    [pgcrypto] extension, the four tables and the three indexes, each
    name once. And no run of [init], successful or not, drops or alters
    a table that was there: its column list stays what it was. *)
Theorem init_idempotent :
  (∀ w w1, fault_free w → txn (db w) = None → init w = (inr (), w1) →
     ∃ w2, init w1 = (inr (), w2) ∧ db w2 = db w1) ∧
  (∀ outcomes, Forall runs outcomes →
     ∃ w1 w2,
       init (boot_world empty_schema None outcomes) = (inr (), w1) ∧
       init w1 = (inr (), w2) ∧
       db w1 = mkDb bootstrapped None ∧ db w2 = db w1 ∧
       extensions bootstrapped = {["pgcrypto"]} ∧
       dom (tables bootstrapped) =
         {["users"; "sessions"; "verification_tokens"; "chat_sessions"]} ∧
       dom (indexes bootstrapped) =
         {["idx_sessions_user_id"; "idx_chat_user_id";
           "idx_verification_identifier"]} ∧
       size (tables bootstrapped) = 4 ∧
       size (indexes bootstrapped) = 3) ∧
  (∀ w name columns, txn (db w) = None →
     tables (committed (db w)) !! name = Some columns →
     tables (committed (db ((init w).2))) !! name = Some columns).
Proof.
  assert (∀ w w1, fault_free w → txn (db w) = None → init w = (inr (), w1) →
            ∃ w2, init w1 = (inr (), w2) ∧ db w2 = db w1) as Hsecond.
  { intros w w1 (He & Hce & Hruns) Htxn Hinit.
    apply init_success_inv in Hinit as (He1 & Hce1 & _ & _ & Hd & Ho).
    rewrite (db_no_txn _ Htxn) in Hd.
    apply run_bootstrap_committed in Hd as (s' & Hd1 & Ha).
    apply apply_all_idempotent, run_bootstrap_from_apply in Ha.
    rewrite <- Hd1 in Ha.
    apply init_runs; [|done].
    split_and!; [done|done|]. rewrite Ho. by apply Forall_drop. }
  split_and!.
  - exact Hsecond.
  - intros outcomes Hruns.
    set (w := boot_world empty_schema None outcomes).
    assert (fault_free w) as Hff by done.
    destruct (init_runs w (mkDb bootstrapped None) Hff) as (w1 & Hinit & Hd1).
    { apply run_bootstrap_from_apply, apply_all_empty. }
    destruct (Hsecond w w1 Hff eq_refl Hinit) as (w2 & Hinit2 & Hd2).
    exists w1, w2.
    pose proof bootstrapped_objects as (?&?&?&?&?).
    split_and!; done.
  - intros w name columns Htxn Hlook.
    destruct (pool_connect w) as [[e|c] w1] eqn:Hconn.
    + apply pool_connect_fail in Hconn as [_ ->]. done.
    + destruct (init_spec _ _ _ Hconn) as (r & w' & -> & _ & _ & _ & _ & _ & Hend).
      simpl. inversion Hend as [wt w'' _ _ Hd | ]; subst.
      * rewrite (db_no_txn _ Htxn) in Hd.
        apply run_bootstrap_committed in Hd as (s' & -> & Ha).
        apply apply_all_le in Ha as (_ & Ht & _). simpl.
        by eapply lookup_weaken.
      * congruence.
Qed.

Lemma init_idempotent_witness :
  (∃ w1 w2,
     init (boot_world empty_schema None []) = (inr (), w1) ∧
     init w1 = (inr (), w2) ∧ db w2 = db w1 ∧
     size (tables (committed (db w2))) = 4 ∧
     size (indexes (committed (db w2))) = 3) ∧
  tables (committed (db ((init (boot_world legacy_schema None [])).2)))
    !! "users" = Some [mkColumn "id" TText [PrimaryKey]].
Proof.
  destruct init_idempotent as (_ & Hempty & Hkeep). split.
  - destruct (Hempty [] (Forall_nil_2 _))
      as (w1 & w2 & H1 & H2 & Hd1 & Hd2 & _ & _ & _ & Ht & Hi).
    exists w1, w2. rewrite Hd2, Hd1. simpl. auto.
  - apply Hkeep; reflexivity.
Defined.

(** * Further properties *)

(** ** More on the query builder *)

Lemma numbered_min (strings : list string) (i n : nat) :
  numbered strings i n = numbered strings i (n `min` (i + length strings)).
Proof.
  revert i. induction strings as [|f rest IH]; intros i; [done|].
  simpl.
  replace (n `min` (i + S (length rest))) with (n `min` (S i + length rest))
    by lia.
  rewrite <- (IH (S i)).
  destruct (decide (i < n)) as [Hlt|Hge].
  - rewrite decide_True by lia. reflexivity.
  - rewrite decide_False by lia. reflexivity.
Qed.

(** X1. For every input, well-formed or not, the parameter list is a
    prefix of the value list, as long as the shorter of the two
    arguments; with [k] the number of parameters returned, the text is
    the fragments in order, fragment number [i] followed by [$(i+1)]
    when [i < k] and by nothing otherwise (the fragments themselves are
    copied as they are, dollar signs included); and the text does not
    depend on what the values are. *)
Theorem sql_params_match_placeholders {V : Type}
    (strings : list string) (vals : list V) :
  values (sql strings vals) = take (length strings) vals ∧
  length (values (sql strings vals)) = length strings `min` length vals ∧
  text (sql strings vals) =
    numbered strings 0 (length (values (sql strings vals))) ∧
  ∀ (V' : Type) (vals' : list V'),
    length vals' = length vals →
    text (sql strings vals') = text (sql strings vals).
Proof.
  split_and!.
  - apply sql_values.
  - by rewrite sql_values, length_take.
  - rewrite sql_text, sql_values, length_take.
    rewrite (numbered_min strings 0 (length vals)). f_equal. lia.
  - intros V' vals' Hlen. by rewrite !sql_text, Hlen.
Qed.

Lemma sql_params_match_placeholders_witness :
  values (sql ["a = "; " AND b = "] [VNum 1; VNum 2; VNum 3])
    = [VNum 1; VNum 2] ∧
  text (sql ["a = "; " AND b = "] [true; false; true])
    = text (sql ["a = "; " AND b = "] [VNum 1; VNum 2; VNum 3]).
Proof.
  destruct (sql_params_match_placeholders ["a = "; " AND b = "]
              [VNum 1; VNum 2; VNum 3]) as (Hv & _ & _ & Hindep).
  split; [exact Hv | exact (Hindep bool [true; false; true] eq_refl)].
Defined.

(** X2. Without values the text is the fragments put together and there
    are no parameters; without fragments the result is empty whatever
    the values. *)
Theorem sql_degenerate {V : Type} :
  (∀ strings, sql strings (@nil V) = mkQueryConfig (join strings) []) ∧
  (∀ vals : list V, sql [] vals = mkQueryConfig "" []).
Proof.
  split; [|done].
  intros strings.
  assert (∀ q : QueryConfig V, q = mkQueryConfig (text q) (values q)) as Heta
    by by intros [].
  rewrite (Heta (sql strings [])), sql_text, sql_values, take_nil.
  by rewrite numbered_past by (simpl; lia).
Qed.

(** X3. A template cut after a fragment that is followed by a value:
    with as many fragments as values in the first part, the text is the
    text of the first part followed by the fragments of the second part
    numbered on from where the first part stopped, and the parameters
    are those of the two parts, one after the other. *)
Theorem sql_app {V : Type} (strings1 strings2 : list string)
    (vals1 vals2 : list V) :
  length strings1 = length vals1 →
  sql (strings1 ++ strings2) (vals1 ++ vals2) =
    mkQueryConfig
      (text (sql strings1 vals1) +:+
       numbered strings2 (length vals1) (length vals1 + length vals2))
      (values (sql strings1 vals1) ++ values (sql strings2 vals2)).
Proof.
  intros Hlen.
  assert (∀ q : QueryConfig V, q = mkQueryConfig (text q) (values q)) as Heta
    by by intros [].
  rewrite (Heta (sql (strings1 ++ strings2) (vals1 ++ vals2))).
  rewrite !sql_text, !sql_values, numbered_app, !length_app.
  rewrite Hlen, Nat.add_0_l. f_equal.
  - f_equal. apply numbered_enough; lia.
  - rewrite take_app_add, (take_ge vals1) by lia. done.
Qed.

Lemma sql_app_witness :
  sql (["a = "; " AND b = "] ++ [" AND c = "; ";"])
      ([VNum 1; VNum 2] ++ [VNum 3])
    = mkQueryConfig "a = $1 AND b = $2 AND c = $3;" [VNum 1; VNum 2; VNum 3].
Proof.
  rewrite (sql_app ["a = "; " AND b = "] [" AND c = "; ";"]
             [VNum 1; VNum 2] [VNum 3] eq_refl).
  reflexivity.
Defined.

Lemma dollars_app (a b : string) : dollars (a +:+ b) = dollars a + dollars b.
Proof.
  induction a as [|x a IH]; [done|].
  rewrite append_cons. simpl. rewrite IH. lia.
Qed.

Lemma dollars_pretty_N_go (x : N) (s : string) :
  dollars (pretty_N_go x s) = dollars s.
Proof.
  revert s. induction (N.lt_wf_0 x) as [x _ IH]; intros s.
  destruct (decide (0 < x)%N) as [Hpos|Hz].
  - rewrite pretty_N_go_step by done.
    rewrite IH by (by apply N.div_lt).
    simpl. unfold pretty_N_char. by repeat case_match.
  - replace x with 0%N by lia. by rewrite pretty_N_go_0.
Qed.

Lemma dollars_placeholder (n : nat) : dollars (placeholder n) = 1.
Proof.
  unfold placeholder. rewrite dollars_app.
  unfold pretty, pretty_nat, pretty, pretty_N.
  destruct (decide (N.of_nat n = 0%N)); [done|].
  by rewrite dollars_pretty_N_go.
Qed.

Lemma dollars_numbered (strings : list string) (i n : nat) :
  dollars (numbered strings i n) =
    dollars_in strings + (n - i) `min` length strings.
Proof.
  revert i. induction strings as [|f rest IH]; intros i; simpl; [lia|].
  rewrite !dollars_app, IH.
  destruct (decide (i < n)).
  - rewrite dollars_placeholder. lia.
  - simpl. lia.
Qed.

(** X4. The text has one dollar sign for every parameter returned, on
    top of the dollar signs the fragments contain: with fragments free
    of dollar signs, the dollar signs of the text count the parameters. *)
Theorem sql_dollars {V : Type} (strings : list string) (vals : list V) :
  dollars (text (sql strings vals)) =
    dollars_in strings + length (values (sql strings vals)).
Proof.
  rewrite sql_text, sql_values, length_take, dollars_numbered. lia.
Qed.

(** ** More on [query] and [getClient] *)

Lemma pool_query_unconnected (a : string + QueryConfig Value)
    (v : option (list Value)) (w : World) (e : Error) (w1 : World) :
  pool_connect w = (inl e, w1) → pool_query a v w = (inl e, w).
Proof.
  intros H. assert (w1 = w) as -> by (by apply pool_connect_fail in H as [-> _]).
  unfold pool_query, mbind, M_bind. by rewrite H.
Qed.

(** On a pool that connects, [pool_query] sends its one statement on the
    new handle and gives the handle back, whatever the statement does. *)
Lemma pool_query_connected (a : string + QueryConfig Value)
    (v : option (list Value)) (w : World) (c : ClientId) (w1 : World) :
  pool_connect w = (inr c, w1) →
  ∃ st r w2 w',
    st = match a with
         | inl t => SQL t (default [] v)
         | inr config => SQL (text config) (default (values config) v)
         end ∧
    client_query c st w1 = (r, w2) ∧
    pool_query a v w = (r, w') ∧
    trace w' = trace w ++ [(c, st)] ∧
    checked_out w' = checked_out w1 ∖ {[c]} ∧
    next_client w' = S c ∧
    ending w' = ending w ∧ connect_error w' = connect_error w ∧
    console w' = console w.
Proof.
  intros Hconn. unfold pool_query, mbind, M_bind. rewrite Hconn.
  apply pool_connect_inv in Hconn as (Hc & He & Hce & ->).
  set (st := match a with inl _ => _ | inr _ => _ end).
  set (w1 := mkWorld _ _ _ _ _ _ _ _).
  unfold try_finally.
  destruct (client_query c st w1) as [r w2] eqn:Hq.
  pose proof (client_query_inv _ _ _ _ _ Hq)
    as ((Hp1 & Hp2 & Hp3 & Hp4) & Hco & Ht & _).
  destruct (client_release_checked_out c w2) as (w3 & -> & Hr).
  { rewrite Hp4. simpl. by apply elem_of_union_l, elem_of_singleton. }
  destruct Hr as (R1&R2&R3&R4&R5&R6&R7&R8).
  exists st, r, w2, w3. split_and!; try done.
  - by rewrite R7, Ht.
  - by rewrite R1, Hp4.
  - by rewrite R6, Hp3.
  - by rewrite R2, Hp1, He.
  - by rewrite R3, Hp2, Hce.
  - by rewrite R8, Hco.
Qed.

(** X5. A query built by [sql] and passed to [query] is sent as built:
    the text with its placeholders, bound to the values that were
    interpolated, whatever parameter list comes with the call. With one
    more fragment than values these are the interleaved text and all the
    values. *)
Theorem query_sends_built_query (strings : list string) (vals : list Value)
    (params : option (list Value)) (w : World) (c : ClientId) (w1 : World) :
  pool_connect w = (inr c, w1) →
  trace ((query (inr (sql strings vals)) params w).2) =
    trace w ++ [(c, SQL (numbered strings 0 (length vals))
                        (take (length strings) vals))] ∧
  (length strings = S (length vals) →
   trace ((query (inr (sql strings vals)) params w).2) =
     trace w ++ [(c, SQL (interleave strings 1) vals)]).
Proof.
  intros Hconn.
  destruct (pool_query_connected (inr (sql strings vals)) None w c w1 Hconn)
    as (st & r & w2 & w' & -> & _ & Hq & Ht & _).
  assert (trace ((query (inr (sql strings vals)) params w).2) =
          trace w ++ [(c, SQL (numbered strings 0 (length vals))
                              (take (length strings) vals))]) as Hsent.
  { unfold query. rewrite Hq. simpl. by rewrite Ht, sql_text, sql_values. }
  split; [exact Hsent|].
  intros Hlen. rewrite Hsent.
  rewrite <- (numbered_interleave strings 0 (length vals)) by done.
  by rewrite take_ge by lia.
Qed.

Lemma query_sends_built_query_witness :
  trace ((query (inr (sql ["SELECT * FROM t WHERE a = "; " AND b = "; ""]
                          [VNum 5; VStr "x"]))
                (Some [VNull]) (boot_world empty_schema None [])).2)
    = [(0, SQL "SELECT * FROM t WHERE a = $1 AND b = $2" [VNum 5; VStr "x"])].
Proof.
  destruct (query_sends_built_query
              ["SELECT * FROM t WHERE a = "; " AND b = "; ""]
              [VNum 5; VStr "x"] (Some [VNull])
              (boot_world empty_schema None []) 0 _ eq_refl) as [_ Hwf].
  rewrite (Hwf eq_refl). reflexivity.
Defined.

(** X6. Called with a string, [query] sends that text bound to the
    parameter list of the call, and to no values when the list is left
    out. *)
Theorem query_text_binds_params (t : string) (params : option (list Value))
    (w : World) (c : ClientId) (w1 : World) :
  pool_connect w = (inr c, w1) →
  trace ((query (inl t) params w).2) =
    trace w ++ [(c, SQL t (default [] params))].
Proof.
  intros Hconn.
  destruct (pool_query_connected (inl t) params w c w1 Hconn)
    as (st & r & w2 & w' & -> & _ & Hq & Ht & _).
  unfold query. by rewrite Hq.
Qed.

Lemma query_text_binds_params_witness :
  trace ((query (inl "SELECT $1") (Some [VNum 7])
                (boot_world empty_schema None [])).2)
    = [(0, SQL "SELECT $1" [VNum 7])] ∧
  trace ((query (inl "SELECT 1") None (boot_world empty_schema None [])).2)
    = [(0, SQL "SELECT 1" [])].
Proof.
  split.
  - exact (query_text_binds_params "SELECT $1" (Some [VNum 7])
             (boot_world empty_schema None []) 0 _ eq_refl).
  - exact (query_text_binds_params "SELECT 1" None
             (boot_world empty_schema None []) 0 _ eq_refl).
Defined.

Lemma fresh_handle_released (w : World) (c : ClientId) (w1 : World) :
  pool_wf w → pool_connect w = (inr c, w1) →
  checked_out w1 ∖ {[c]} = checked_out w.
Proof.
  intros Hwf Hconn. apply pool_connect_inv in Hconn as (-> & _ & _ & ->).
  simpl. assert (next_client w ∉ checked_out w) as Hfresh.
  { intros Hin. apply Hwf in Hin. lia. }
  apply set_eq. intros x.
  rewrite elem_of_difference, elem_of_union, !elem_of_singleton.
  split; [tauto|]. intros Hx. split; [tauto|]. by intros ->.
Qed.

(** X7. [query] takes no connection away from the pool: the handles
    checked out after the call are those checked out before it, whether
    the statement ran or failed; at most one statement is sent; the pool
    is not closed and nothing is logged. *)
Theorem query_connection_neutral (textOrConfig : string + QueryConfig Value)
    (params : option (list Value)) (w : World) :
  pool_wf w →
  let w' := (query textOrConfig params w).2 in
  checked_out w' = checked_out w ∧ pool_wf w' ∧
  length (trace w') ≤ S (length (trace w)) ∧
  ending w' = ending w ∧ console w' = console w.
Proof.
  intros Hwf.
  assert (∀ a v, let w' := (pool_query a v w).2 in
            checked_out w' = checked_out w ∧ pool_wf w' ∧
            length (trace w') ≤ S (length (trace w)) ∧
            ending w' = ending w ∧ console w' = console w) as Hpq.
  { intros a v. destruct (pool_connect w) as [[e|c] w1] eqn:Hconn.
    - rewrite (pool_query_unconnected a v w e w1 Hconn). simpl.
      split_and!; try done. lia.
    - destruct (pool_query_connected a v w c w1 Hconn)
        as (st & r & w2 & w' & _ & _ & -> & Ht & Hco & Hn & He & _ & Hcons).
      simpl. rewrite Hco, (fresh_handle_released w c w1 Hwf Hconn).
      split_and!; try done.
      + intros x Hx. rewrite Hco, (fresh_handle_released w c w1 Hwf Hconn) in Hx.
        apply Hwf in Hx. apply pool_connect_inv in Hconn as (-> & _). lia.
      + rewrite Ht, length_app. simpl. lia. }
  destruct textOrConfig as [t|config]; apply Hpq.
Qed.

Lemma query_connection_neutral_witness :
  checked_out ((query (inl "SELECT 1") None
                  (boot_world empty_schema None [Fails connection_lost])).2)
    = ∅.
Proof.
  assert (pool_wf (boot_world empty_schema None [Fails connection_lost]))
    as Hwf.
  { intros c Hc. simpl in Hc. by apply not_elem_of_empty in Hc. }
  exact (proj1 (query_connection_neutral (inl "SELECT 1") None _ Hwf)).
Defined.

(** X8. When the pool hands out no connection (it is closed, or it
    cannot connect), [init], [getClient] and [query] reject with the
    error of the pool and leave the world as it is: [init] sends no
    statement, no [ROLLBACK] either, logs nothing and releases
    nothing. *)
Theorem no_connection_no_effect (w : World) (e : Error) (w1 : World) :
  pool_connect w = (inl e, w1) →
  init w = (inl e, w) ∧
  getClient w = (inl e, w) ∧
  ∀ textOrConfig params, query textOrConfig params w = (inl e, w).
Proof.
  intros Hconn. split_and!.
  - by apply pool_connect_fail in Hconn as [_ ?].
  - pose proof Hconn as Hc. apply pool_connect_fail in Hc as [-> _].
    unfold getClient, mbind, M_bind. by rewrite Hconn.
  - intros [t|config] params; unfold query;
      by eapply pool_query_unconnected.
Qed.

Lemma no_connection_no_effect_witness :
  let w := boot_world empty_schema (Some connection_lost) [] in
  init w = (inl connection_lost, w) ∧ trace ((init w).2) = [].
Proof.
  intros w.
  destruct (no_connection_no_effect w connection_lost w eq_refl)
    as (Hinit & _ & _).
  split; [exact Hinit | by rewrite Hinit].
Defined.

(** X9. [getClient] hands out the handle of [pool.connect] and leaves
    it checked out, sending nothing; releasing it gives the pool its
    earlier state back, and releasing it a second time is an error. *)
Theorem getClient_then_release (w : World) (c : ClientId) (w1 : World) :
  pool_wf w →
  getClient w = (inr c, w1) →
  c = next_client w ∧ c ∈ checked_out w1 ∧
  trace w1 = trace w ∧ db w1 = db w ∧
  ∃ w2, client_release c w1 = (inr (), w2) ∧
        checked_out w2 = checked_out w ∧
        client_release c w2 = (inl double_release, w2).
Proof.
  intros Hwf Hget.
  assert (pool_connect w = (inr c, w1)) as Hconn.
  { unfold getClient, mbind, M_bind in Hget.
    destruct (pool_connect w) as [[e|c'] w'] eqn:Hc; [done|].
    by injection Hget as -> ->. }
  pose proof (fresh_handle_released w c w1 Hwf Hconn) as Hrel.
  pose proof (pool_connect_inv _ _ _ Hconn) as (Hc & _ & _ & Hw1).
  assert (c ∈ checked_out w1) as Hin.
  { rewrite Hw1. simpl. by apply elem_of_union_l, elem_of_singleton. }
  destruct (client_release_checked_out c w1 Hin) as (w2 & Hr & R1 & _).
  split_and!; try done; try (by rewrite Hw1).
  exists w2. split_and!; [done|by rewrite R1|].
  unfold client_release. rewrite decide_False; [done|].
  rewrite R1, elem_of_difference, elem_of_singleton. tauto.
Qed.

Lemma getClient_then_release_witness :
  ∃ w1 w2, getClient (boot_world empty_schema None []) = (inr 0, w1) ∧
           client_release 0 w1 = (inr (), w2) ∧ checked_out w2 = ∅.
Proof.
  assert (pool_wf (boot_world empty_schema None [])) as Hwf.
  { intros c Hc. simpl in Hc. by apply not_elem_of_empty in Hc. }
  set (w1 := mkWorld false None [] (mkDb empty_schema None) 1 ({[0]} ∪ ∅) [] []).
  destruct (getClient_then_release (boot_world empty_schema None []) 0 w1
              Hwf eq_refl) as (_ & _ & _ & _ & w2 & Hr & Hco & _).
  exists w1, w2. split; [reflexivity|]. split; [exact Hr | exact Hco].
Defined.

(** ** More on the schema bootstrap *)

Lemma client_release_console (c : ClientId) (w : World) :
  console ((client_release c w).2) = console w.
Proof. unfold client_release. by destruct (decide _). Qed.

Lemma init_transaction_failed (c : ClientId) (w1 : World) (e : Error)
    (wf : World) :
  init_transaction c w1 = (inl e, wf) →
  ∃ n, n < length bootstrap_statements ∧
       same_pool w1 wf ∧ console wf = console w1 ∧
       trace wf = trace w1 ++ (pair c <$> take (S n) bootstrap_statements) ∧
       outcomes wf = drop (S n) (outcomes w1) ∧
       run_stmts (take n bootstrap_statements) (db w1) = Some (db wf).
Proof.
  rewrite init_transaction_unfold. intros Htx.
  destruct (send_all_then_spec c bootstrap_statements
              (console_info initialized_message) w1)
    as [(w2 & Hk & _)|(n & st & e0 & wf0 & Hl & Hk & Hp & Hco & Ht & Ho & Hd)].
  - rewrite Hk in Htx. done.
  - rewrite Hk in Htx. injection Htx as <- <-.
    exists n. apply lookup_lt_Some in Hl. split_and!; done.
Qed.

(** When the [ROLLBACK] fails, nothing is logged. *)
Lemma init_rollback_failed_silent (w : World) (c : ClientId) (w1 : World)
    (e : Error) (wf : World) (er : Error) (wq : World) :
  pool_connect w = (inr c, w1) →
  init_transaction c w1 = (inl e, wf) →
  client_query c ROLLBACK wf = (inl er, wq) →
  console ((init w).2) = console w.
Proof.
  intros Hconn Htx Hq. rewrite (init_connected _ _ _ Hconn).
  destruct (init_transaction_failed _ _ _ _ Htx) as (n & _ & _ & Hco & _).
  apply client_query_inv in Hq as Hinv. destruct Hinv as (_ & Hcq & _).
  apply pool_connect_inv in Hconn as (_ & _ & _ & Hw1).
  unfold try_finally, try_catch. rewrite Htx.
  unfold init_recover, mbind, M_bind. rewrite Hq.
  pose proof (client_release_console c wq) as Hrel.
  destruct (client_release c wq) as [[e2|u] w3]; simpl in *;
    rewrite Hrel, Hcq, Hco, Hw1; done.
Qed.

(** X10. Every run of [init] that gets a connection has one of two
    shapes. Either it succeeds, having sent the ten statements and
    logged the one success line; or it rejects, having sent the
    statements up to the first one that failed and then [ROLLBACK],
    nothing after it, and having logged at most the one error line.
    All statements go over the connection acquired. *)
Theorem init_every_run (w : World) (c : ClientId) (w1 : World) :
  pool_connect w = (inr c, w1) →
  ((init w).1 = inr () ∧
   trace ((init w).2) = trace w ++ (pair c <$> bootstrap_statements) ∧
   console ((init w).2) = console w ++ [ConsoleInfo initialized_message])
  ∨
  (∃ n e',
     n < 10 ∧ (init w).1 = inl e' ∧
     trace ((init w).2) =
       trace w ++
       (pair c <$> take (S n) bootstrap_statements ++ [ROLLBACK]) ∧
     (console ((init w).2) = console w ∨
      ∃ e, console ((init w).2) =
             console w ++ [ConsoleError failed_message e])).
Proof.
  intros Hconn.
  destruct (init_spec _ _ _ Hconn) as (r & w' & Hinit & _ & _ & _ & _ & _ & Hend).
  inversion Hend as [wt w'' Htx Ht _ _ Hco
                    | n st e wf rq wq e' w'' Hl Htx Ht Hq Ht' _ Hrq]; subst.
  - left. rewrite Hinit. simpl. done.
  - right. exists n, e'. apply lookup_lt_Some in Hl.
    split_and!.
    + exact Hl.
    + by rewrite Hinit.
    + rewrite Hinit. simpl. rewrite Ht', Ht, fmap_app, <- app_assoc. done.
    + destruct rq as [er|rows].
      * left. by eapply init_rollback_failed_silent.
      * right. exists e. rewrite Hinit. simpl. by destruct Hrq as (_ & _ & ?).
Qed.

Lemma init_every_run_witness :
  let w := boot_world empty_schema None [Fails connection_lost; Runs []] in
  (init w).1 = inl connection_lost ∧
  trace ((init w).2) = [(0, BEGIN); (0, ROLLBACK)].
Proof.
  intros w.
  destruct (init_every_run w 0 _ eq_refl)
    as [(Hok & _) | (n & e' & Hn & He & Ht & _)].
  - exfalso. vm_compute in Hok. discriminate Hok.
  - split; reflexivity.
Defined.

Lemma run_stmts_app (l1 l2 : list Stmt) (d : Db) :
  run_stmts (l1 ++ l2) d =
    match run_stmts l1 d with
    | Some d1 => run_stmts l2 d1
    | None => None
    end.
Proof.
  revert d. induction l1 as [|st l1 IH]; intros d; simpl; [done|].
  by destruct (run_stmt st d).
Qed.

(** The whole transaction, whatever was open before: the statements
    are applied to the schema [BEGIN] finds, and the result is
    committed. *)
Lemma run_bootstrap_any (d d' : Db) :
  run_stmts bootstrap_statements d = Some d' →
  ∃ s', d' = mkDb s' None ∧
        apply_all bootstrap_ddl (default (committed d) (txn d)) = Some s'.
Proof.
  rewrite bootstrap_statements_eq. cbn [run_stmts run_stmt].
  rewrite run_stmts_app.
  destruct (run_stmts bootstrap_ddl _) as [d1|] eqn:Hd1; [|done].
  eapply run_stmts_in_txn in Hd1 as (Hc & work' & Ht & Ha);
    [|reflexivity|apply bootstrap_ddl_keeps_txn].
  cbn [run_stmts run_stmt]. rewrite Ht. simpl. intros [= <-]. eauto.
Qed.

(** X11. When [init] resolves, whatever the database held before, the
    [pgcrypto] extension is committed, each of the seven names of the
    bootstrap is the name of a committed relation (a table or an index:
    "if not exists" looks at the name only), no transaction is open, and
    the one success line has been logged. *)
Theorem init_success_establishes_schema (w w' : World) :
  init w = (inr (), w') →
  txn (db w') = None ∧
  "pgcrypto" ∈ extensions (committed (db w')) ∧
  (∀ name,
     name ∈ ["users"; "sessions"; "verification_tokens"; "chat_sessions";
             "idx_sessions_user_id"; "idx_chat_user_id";
             "idx_verification_identifier"] →
     relation_exists (committed (db w')) name = true) ∧
  console w' = console w ++ [ConsoleInfo initialized_message].
Proof.
  intros Hinit.
  destruct (pool_connect w) as [[e|c] w1] eqn:Hconn.
  { apply pool_connect_fail in Hconn as [_ Hfail]. congruence. }
  destruct (init_spec _ _ _ Hconn) as (r & w'' & Hi & _ & _ & _ & _ & _ & Hend).
  rewrite Hinit in Hi. injection Hi as <- <-.
  inversion Hend as [wt w'' _ _ Hd _ Hco | ]; subst.
  apply run_bootstrap_any in Hd as (s' & -> & Ha).
  apply apply_all_established in Ha. cbn [txn committed].
  unfold bootstrap_ddl in Ha.
  repeat match goal with
         | H : Forall _ (_ :: _) |- _ => apply Forall_cons in H as [? H]
         end.
  split_and!; [done|done| |done].
  intros name Hin. repeat (apply elem_of_cons in Hin as [->|Hin]); try done.
  by apply elem_of_nil in Hin.
Qed.

Lemma init_success_establishes_schema_witness :
  let w := boot_world older_schema None [] in
  relation_exists (committed (db ((init w).2))) "chat_sessions" = true.
Proof.
  intros w.
  assert (init w = (inr (), (init w).2)) as Hinit by (vm_compute; reflexivity).
  destruct (init_success_establishes_schema w _ Hinit) as (_ & _ & Hr & _).
  apply Hr. apply list_elem_of_In. simpl. auto.
Defined.

(** A statement leaves alone the names it does not create. *)
Lemma apply_ddl_other (st : Stmt) (s s' : Schema) (name : string) :
  apply_ddl st s = inr s' →
  creates st ≠ Some name →
  tables s' !! name = tables s !! name ∧
  indexes s' !! name = indexes s !! name.
Proof.
  intros Ha Hne. destruct st as [| | |x|x columns|x t col|t v];
    simpl in Ha, Hne; try (by injection Ha as <-).
  - destruct (relation_exists s x); [by injection Ha as <-|].
    destruct (check_references _ _); [done|]. injection Ha as <-. simpl.
    split; [|done]. apply lookup_insert_ne. congruence.
  - destruct (relation_exists s x); [by injection Ha as <-|].
    destruct (tables s !! t); [|done].
    destruct (has_column _ _); [|done]. injection Ha as <-. simpl.
    split; [done|]. apply lookup_insert_ne. congruence.
Qed.

Lemma apply_ddl_other_relation (st : Stmt) (s s' : Schema) (name : string) :
  apply_ddl st s = inr s' →
  creates st ≠ Some name →
  relation_exists s' name = relation_exists s name.
Proof.
  intros Ha Hne. destruct (apply_ddl_other _ _ _ _ Ha Hne) as [Ht Hi].
  unfold relation_exists. by rewrite Ht, Hi.
Qed.

(** A table whose name is free when the statements start has, at the
    end, the columns of the first statement that creates it. *)
Lemma apply_all_created_table (l1 : list Stmt) (name : string)
    (columns : list Column) (l2 : list Stmt) (s s' : Schema) :
  apply_all (l1 ++ CreateTableIfNotExists name columns :: l2) s = Some s' →
  relation_exists s name = false →
  Forall (λ st, creates st ≠ Some name) l1 →
  tables s' !! name = Some columns.
Proof.
  intros Ha Hnone Hl1. revert s Ha Hnone.
  induction Hl1 as [|st l1 Hst _ IH]; intros s Ha Hnone; simpl in Ha.
  - rewrite Hnone in Ha.
    destruct (check_references _ _); [done|].
    apply apply_all_le in Ha as (_ & Ht & _).
    eapply lookup_weaken; [|exact Ht]. simpl. apply lookup_insert_eq.
  - destruct (apply_ddl st s) as [e|s1] eqn:H1; [done|].
    apply (IH s1 Ha). by rewrite (apply_ddl_other_relation _ _ _ _ H1 Hst).
Qed.

Lemma apply_all_created_index (l1 : list Stmt) (name t col : string)
    (l2 : list Stmt) (s s' : Schema) :
  apply_all (l1 ++ CreateIndexIfNotExists name t col :: l2) s = Some s' →
  relation_exists s name = false →
  Forall (λ st, creates st ≠ Some name) l1 →
  indexes s' !! name = Some (t, col).
Proof.
  intros Ha Hnone Hl1. revert s Ha Hnone.
  induction Hl1 as [|st l1 Hst _ IH]; intros s Ha Hnone; simpl in Ha.
  - rewrite Hnone in Ha.
    destruct (tables s !! t); [|done].
    destruct (has_column _ _); [|done].
    apply apply_all_le in Ha as (_ & _ & Hi).
    eapply lookup_weaken; [|exact Hi]. simpl. apply lookup_insert_eq.
  - destruct (apply_ddl st s) as [e|s1] eqn:H1; [done|].
    apply (IH s1 Ha). by rewrite (apply_ddl_other_relation _ _ _ _ H1 Hst).
Qed.

(** An index whose name is free, on a table that lacks the column, is
    refused when its statement is reached. *)
Lemma apply_all_index_refused (l1 : list Stmt) (name t col : string)
    (l2 : list Stmt) (s : Schema) (columns : list Column) :
  relation_exists s name = false →
  tables s !! t = Some columns →
  has_column col columns = false →
  Forall (λ st, creates st ≠ Some name) l1 →
  apply_all (l1 ++ CreateIndexIfNotExists name t col :: l2) s = None.
Proof.
  intros Hnone Ht Hcol Hl1. revert s Hnone Ht.
  induction Hl1 as [|st l1 Hst _ IH]; intros s Hnone Ht; simpl.
  - by rewrite Hnone, Ht, Hcol.
  - destruct (apply_ddl st s) as [e|s1] eqn:H1; [done|].
    apply IH.
    + by rewrite (apply_ddl_other_relation _ _ _ _ H1 Hst).
    + apply apply_ddl_le in H1 as (_ & Hle & _). by eapply lookup_weaken.
Qed.

(** X12. What a successful run adds has the shape the source gives it:
    a table of the bootstrap whose name was free before the run has
    exactly the columns of its [CREATE TABLE] statement afterwards, and
    an index whose name was free is on the table and column of its
    [CREATE INDEX] statement. *)
Theorem init_creates_as_declared (w w' : World) :
  txn (db w) = None →
  init w = (inr (), w') →
  (∀ name columns,
     CreateTableIfNotExists name columns ∈ bootstrap_ddl →
     relation_exists (committed (db w)) name = false →
     tables (committed (db w')) !! name = Some columns) ∧
  (∀ name t col,
     CreateIndexIfNotExists name t col ∈ bootstrap_ddl →
     relation_exists (committed (db w)) name = false →
     indexes (committed (db w')) !! name = Some (t, col)).
Proof.
  intros Htxn Hinit.
  apply init_success_inv in Hinit as (_ & _ & _ & _ & Hd & _).
  apply run_bootstrap_any in Hd as (s' & -> & Ha).
  rewrite Htxn in Ha.
  change (default (committed (db w)) None) with (committed (db w)) in Ha.
  cbn [committed]. split.
  - intros name columns Hin Hnone. unfold bootstrap_ddl in Hin.
    repeat (apply elem_of_cons in Hin as [Heq|Hin]);
      try (by inversion Heq); try (by apply elem_of_nil in Hin);
      injection Heq as -> ->.
    + apply (apply_all_created_table [create_pgcrypto] _ _ _ _ _ Ha Hnone).
      by repeat constructor.
    + apply (apply_all_created_table [create_pgcrypto; create_users]
               _ _ _ _ _ Ha Hnone).
      by repeat constructor.
    + apply (apply_all_created_table
               [create_pgcrypto; create_users; create_sessions]
               _ _ _ _ _ Ha Hnone).
      by repeat constructor.
    + apply (apply_all_created_table
               [create_pgcrypto; create_users; create_sessions;
                create_verification_tokens]
               _ _ _ _ _ Ha Hnone).
      by repeat constructor.
  - intros name t col Hin Hnone. unfold bootstrap_ddl in Hin.
    repeat (apply elem_of_cons in Hin as [Heq|Hin]);
      try (by inversion Heq); try (by apply elem_of_nil in Hin);
      injection Heq as -> -> ->.
    + apply (apply_all_created_index
               [create_pgcrypto; create_users; create_sessions;
                create_verification_tokens; create_chat_sessions]
               _ _ _ _ _ _ Ha Hnone).
      by repeat constructor.
    + apply (apply_all_created_index
               [create_pgcrypto; create_users; create_sessions;
                create_verification_tokens; create_chat_sessions;
                create_idx_sessions_user_id]
               _ _ _ _ _ _ Ha Hnone).
      by repeat constructor.
    + apply (apply_all_created_index
               [create_pgcrypto; create_users; create_sessions;
                create_verification_tokens; create_chat_sessions;
                create_idx_sessions_user_id; create_idx_chat_user_id]
               _ _ _ _ _ _ Ha Hnone).
      by repeat constructor.
Qed.

Lemma init_creates_as_declared_witness :
  let w := boot_world older_schema None [] in
  indexes (committed (db ((init w).2))) !! "idx_chat_user_id"
    = Some ("chat_sessions", "user_id") ∧
  length <$> tables (committed (db ((init w).2))) !! "verification_tokens"
    = Some 5.
Proof.
  intros w.
  assert (init w = (inr (), (init w).2)) as Hinit by (vm_compute; reflexivity).
  destruct (init_creates_as_declared w _ eq_refl Hinit) as (Ht & Hi).
  split.
  - apply Hi; [|reflexivity].
    apply list_elem_of_In. simpl. auto 10.
  - assert (create_verification_tokens ∈ bootstrap_ddl) as Hin
      by (apply list_elem_of_In; simpl; auto 10).
    rewrite (Ht _ _ Hin eq_refl). reflexivity.
Defined.

Lemma init_pool_balance (w : World) :
  pool_wf w →
  checked_out ((init w).2) = checked_out w ∧
  pool_wf ((init w).2) ∧
  ending ((init w).2) = ending w ∧
  connect_error ((init w).2) = connect_error w.
Proof.
  intros Hwf. destruct (pool_connect w) as [[e|c] w1] eqn:Hconn.
  - apply pool_connect_fail in Hconn as [_ ->]. done.
  - destruct (init_spec _ _ _ Hconn)
      as (r & w' & -> & _ & Hco & He & Hce & Hn & _).
    simpl. pose proof (fresh_handle_released w c w1 Hwf Hconn) as Hrel.
    apply pool_connect_inv in Hconn as (Hc & He0 & Hce0 & _).
    split_and!; try congruence.
    intros x Hx. rewrite Hco, Hrel in Hx. apply Hwf in Hx. lia.
Qed.

(** X13. [init] takes no connection away from the pool and does not
    close it: with the handles the pool handed out, the handles
    checked out after any run, successful or not, are those checked out
    before it. *)
Theorem init_connection_neutral (w : World) :
  pool_wf w →
  checked_out ((init w).2) = checked_out w ∧
  pool_wf ((init w).2) ∧
  ending ((init w).2) = ending w ∧
  connect_error ((init w).2) = connect_error w.
Proof. apply init_pool_balance. Qed.

Lemma init_connection_neutral_witness :
  checked_out ((init (boot_world empty_schema None
                        [Runs []; Fails table_failure])).2) = ∅.
Proof.
  assert (pool_wf (boot_world empty_schema None
                     [Runs []; Fails table_failure])) as Hwf.
  { intros c Hc. simpl in Hc. by apply not_elem_of_empty in Hc. }
  exact (proj1 (init_connection_neutral _ Hwf)).
Defined.



(** With no failure from outside and no transaction open, a bootstrap
    the database refuses is rolled back: [init] rejects and the database
    is as it was. *)
Lemma init_refused (w : World) :
  fault_free w → txn (db w) = None →
  apply_all bootstrap_ddl (committed (db w)) = None →
  ∃ e w', init w = (inl e, w') ∧ db w' = db w.
Proof.
  intros Hff Htxn Hnone.
  destruct (pool_connect_fault_free w Hff) as (w1 & Hconn).
  set (c := next_client w) in *.
  destruct (init_spec _ _ _ Hconn) as (r & w' & Hinit & _ & _ & _ & _ & _ & Hend).
  inversion Hend as [wt w'' _ _ Hd _ _
                    | n st e wf rq wq e' w'' _ Htx _ Hq _ Hc Hrq]; subst.
  - apply run_bootstrap_any in Hd as (s' & _ & Ha).
    rewrite Htxn in Ha.
    change (default (committed (db w)) None) with (committed (db w)) in Ha.
    congruence.
  - exists e', w'. split; [done|].
    destruct (init_transaction_failed _ _ _ _ Htx) as (k & _ & _ & _ & _ & Ho & _).
    assert (Forall runs (outcomes wf)) as Hruns.
    { rewrite Ho. apply Forall_drop.
      apply pool_connect_inv in Hconn as (_ & _ & _ & ->). simpl.
      by destruct Hff as (_ & _ & ?). }
    destruct (client_query_runs c ROLLBACK wf
                (mkDb (committed (db wf)) None) Hruns eq_refl)
      as (rows & wq' & Hq' & _).
    rewrite Hq' in Hq. injection Hq as <- <-.
    destruct Hrq as (_ & Ht' & _).
    rewrite (db_no_txn _ Ht'), (db_no_txn _ Htxn). by rewrite Hc.
Qed.

(** X15. There is no migration. With no failure from outside and no
    transaction open: if a table that one of the three indexes of the
    bootstrap is to be built on exists without the indexed column, and
    the name of that index is free, [init] rejects and leaves the
    database as it was. *)
Theorem init_no_migration (w : World) (name t col : string)
    (columns : list Column) :
  fault_free w → txn (db w) = None →
  CreateIndexIfNotExists name t col ∈ bootstrap_ddl →
  relation_exists (committed (db w)) name = false →
  tables (committed (db w)) !! t = Some columns →
  has_column col columns = false →
  ∃ e w', init w = (inl e, w') ∧ db w' = db w.
Proof.
  intros Hff Htxn Hin Hfree Ht Hcol.
  apply init_refused; [done|done|].
  unfold bootstrap_ddl in Hin.
  repeat (apply elem_of_cons in Hin as [Heq|Hin]);
    try (by inversion Heq); try (by apply elem_of_nil in Hin);
    injection Heq as -> -> ->.
  - apply (apply_all_index_refused
             [create_pgcrypto; create_users; create_sessions;
              create_verification_tokens; create_chat_sessions]
             _ _ _ _ _ _ Hfree Ht Hcol).
    by repeat constructor.
  - apply (apply_all_index_refused
             [create_pgcrypto; create_users; create_sessions;
              create_verification_tokens; create_chat_sessions;
              create_idx_sessions_user_id]
             _ _ _ _ _ _ Hfree Ht Hcol).
    by repeat constructor.
  - apply (apply_all_index_refused
             [create_pgcrypto; create_users; create_sessions;
              create_verification_tokens; create_chat_sessions;
              create_idx_sessions_user_id; create_idx_chat_user_id]
             _ _ _ _ _ _ Hfree Ht Hcol).
    by repeat constructor.
Qed.

Lemma init_no_migration_witness :
  let w := boot_world stale_schema None [] in
  ∃ e w', init w = (inl e, w') ∧ db w' = db w.
Proof.
  intros w.
  assert (fault_free w) as Hff by (split_and!; [done|done|constructor]).
  apply (init_no_migration w "idx_sessions_user_id" "sessions" "user_id"
           [mkColumn "id" TUuid [PrimaryKey]] Hff eq_refl);
    [|reflexivity|reflexivity|reflexivity].
  apply list_elem_of_In. simpl. auto 10.
Defined.
